(** * Black-Scholes pricer and implied-volatility search

    A shallow embedding of [BS_CALL], [BS_PUT] and [implied_volatility]
    from [website-files/black_scholes.py].

    Number model.  A finite Python float is a real number: rounding,
    overflow and the sign of zero are idealised away.  The values numpy
    produces ([np.log], [np.sqrt], [np.exp], [norm.cdf] and arithmetic on
    their results) are [npfloat]s: a finite real, one of the two
    infinities, or NaN, with the IEEE 754 rules for the special values.
    numpy signals an invalid operation or a division by zero with a
    warning and carries on.

    Exceptions.  Two operations of the pricer are evaluated by Python
    itself when their operands are Python floats, and Python raises where
    numpy warns: the division [S/K] (ZeroDivisionError) and the power
    [sigma**2] (OverflowError, once the square leaves the float range).
    [S] and [K] are Python floats wherever this file calls the pricer.
    [sigma] is a numpy float64 there ([get_vals] returns a pandas
    reduction divided by 100, [plot_sigma_change] iterates [np.arange]),
    so [BS_CALL], [BS_PUT] and [implied_volatility] below take the power
    as numpy does; [BS_CALL_pyfloat], [BS_PUT_pyfloat] and
    [implied_volatility_pyfloat] are the same functions called with a
    Python float for sigma, where the power can raise.  They agree as
    long as the square stays in range. *)

From Stdlib Require Import Reals Lra Lia ZArith List Bool.
Import ListNotations.
Open Scope R_scope.

(** ** Exceptions and outcomes *)

Inductive exn : Set :=
| ZeroDivisionError
| OverflowError.

Inductive outcome (A : Type) : Type :=
| Ret (a : A)
| Raise (e : exn).

Arguments Ret {A} a.
Arguments Raise {A} e.

Definition bind {A B : Type} (c : outcome A) (k : A -> outcome B) : outcome B :=
  match c with
  | Ret a => k a
  | Raise e => Raise e
  end.

Definition omap {A B : Type} (f : A -> B) (c : outcome A) : outcome B :=
  bind c (fun a => Ret (f a)).

Notation "x <- c ;; k" := (bind c (fun x => k))
  (at level 61, c at next level, right associativity).

(** ** numpy float64 values *)

Inductive npfloat : Set :=
| Fin (x : R)
| PInf
| NInf
| NaN.

Definition fneg (a : npfloat) : npfloat :=
  match a with
  | Fin x => Fin (- x)
  | PInf => NInf
  | NInf => PInf
  | NaN => NaN
  end.

Definition fadd (a b : npfloat) : npfloat :=
  match a, b with
  | NaN, _ | _, NaN => NaN
  | Fin x, Fin y => Fin (x + y)
  | PInf, NInf | NInf, PInf => NaN
  | PInf, _ | _, PInf => PInf
  | NInf, _ | _, NInf => NInf
  end.

Definition fsub (a b : npfloat) : npfloat := fadd a (fneg b).

(** An infinity of the sign of [x], or NaN when [x] is zero. *)
Definition inf_times (x : R) (pos : bool) : npfloat :=
  match total_order_T x 0 with
  | inleft (left _) => if pos then NInf else PInf
  | inleft (right _) => NaN
  | inright _ => if pos then PInf else NInf
  end.

Definition fmul (a b : npfloat) : npfloat :=
  match a, b with
  | NaN, _ | _, NaN => NaN
  | Fin x, Fin y => Fin (x * y)
  | Fin x, PInf | PInf, Fin x => inf_times x true
  | Fin x, NInf | NInf, Fin x => inf_times x false
  | PInf, PInf | NInf, NInf => PInf
  | PInf, NInf | NInf, PInf => NInf
  end.

(** Division.  A zero divisor is taken as [+0.0]. *)
Definition fdiv (a b : npfloat) : npfloat :=
  match a, b with
  | NaN, _ | _, NaN => NaN
  | Fin x, Fin y =>
      if Req_dec_T y 0 then inf_times x true else Fin (x / y)
  | Fin _, (PInf | NInf) => Fin 0
  | PInf, Fin y => if Rlt_dec y 0 then NInf else PInf
  | NInf, Fin y => if Rlt_dec y 0 then PInf else NInf
  | (PInf | NInf), (PInf | NInf) => NaN
  end.

Definition fabs (a : npfloat) : npfloat :=
  match a with
  | Fin x => Fin (Rabs x)
  | PInf | NInf => PInf
  | NaN => NaN
  end.

(** Comparisons: every comparison with NaN is false. *)
Definition flt (a b : npfloat) : bool :=
  match a, b with
  | NaN, _ | _, NaN => false
  | Fin x, Fin y => if Rlt_dec x y then true else false
  | NInf, (Fin _ | PInf) => true
  | Fin _, PInf => true
  | _, _ => false
  end.

Definition fgt (a b : npfloat) : bool := flt b a.

(** [np.log], [np.sqrt], [np.exp]. *)
Definition np_log (a : npfloat) : npfloat :=
  match a with
  | Fin x =>
      match total_order_T x 0 with
      | inleft (left _) => NaN
      | inleft (right _) => NInf
      | inright _ => Fin (ln x)
      end
  | PInf => PInf
  | NInf | NaN => NaN
  end.

Definition np_sqrt (a : npfloat) : npfloat :=
  match a with
  | Fin x => if Rlt_dec x 0 then NaN else Fin (sqrt x)
  | PInf => PInf
  | NInf | NaN => NaN
  end.

Definition np_exp (a : npfloat) : npfloat :=
  match a with
  | Fin x => Fin (exp x)
  | PInf => PInf
  | NInf => Fin 0
  | NaN => NaN
  end.

(** ** The standard normal distribution *)

(** Unnormalised density [exp (- t^2 / 2)]. *)
Definition gauss (t : R) : R := exp (- (t * t / 2)).

Lemma gauss_continuous : forall t, continuity_pt gauss t.
Proof.
  intro t. unfold gauss.
  apply derivable_continuous_pt. reg.
Qed.

Lemma gauss_integrable : forall a b, Riemann_integrable gauss a b.
Proof.
  intros a b. destruct (Rle_dec a b) as [H | H].
  - apply continuity_implies_RiemannInt; [exact H | intros; apply gauss_continuous].
  - apply RiemannInt_P1.
    apply continuity_implies_RiemannInt; [lra | intros; apply gauss_continuous].
Qed.

(** [gauss_int x] is the integral of [gauss] from [0] to [x]. *)
Definition gauss_int (x : R) : R := RiemannInt (gauss_integrable 0 x).

(** The cumulative distribution function, [1/2 + erf (x / sqrt 2) / 2]. *)
Definition Phi (x : R) : R := 1 / 2 + gauss_int x / sqrt (2 * PI).

(** [scipy.stats.norm.cdf]. *)
Definition norm_cdf (a : npfloat) : npfloat :=
  match a with
  | Fin x => Fin (Phi x)
  | PInf => Fin 1
  | NInf => Fin 0
  | NaN => NaN
  end.

(** ** Python float operations *)

(** [a / b] on Python floats raises when the divisor is zero.  [S] and
    [K] reach the pricer as Python floats ([main] passes
    [info['previousClose']] and [float(input(...))]; iterating a pandas
    column yields Python floats too), so [S/K] is this division and not
    numpy's. *)
Definition py_div (a b : R) : outcome R :=
  if Req_dec_T b 0 then Raise ZeroDivisionError else Ret (a / b).

(** The least magnitude that rounds to an infinity: halfway between the
    largest float, [2^1024 - 2^971], and [2^1024]. *)
Definition float_overflow : R := IZR (2 ^ 1024 - 2 ^ 970).

(** [x ** n] on a Python float and an int raises when the power is too
    large for a float. *)
Definition py_pow (x : R) (n : nat) : outcome R :=
  if Rlt_dec (Rabs (x ^ n)) float_overflow then Ret (x ^ n) else Raise OverflowError.

(** [round(x)] to an integer, ties to the even neighbour. *)
Definition round_half_even (x : R) : Z :=
  let n := Int_part x in
  let f := frac_part x in
  if Rlt_dec f (1 / 2) then n
  else if Rlt_dec (1 / 2) f then (n + 1)%Z
  else if Z.even n then n else (n + 1)%Z.

(** [round(x, ndigits)]. *)
Definition py_round (x : R) (ndigits : nat) : R :=
  IZR (round_half_even (x * 10 ^ ndigits)) / 10 ^ ndigits.

(** ** Pricer *)

Definition BS_CALL (S K T r sigma : R) : outcome npfloat :=
  q <- py_div S K ;;
  let N := norm_cdf in
  let d1 := fdiv (fadd (np_log (Fin q)) (Fin ((r + (sigma ^ 2) / 2) * T)))
                 (fmul (Fin sigma) (np_sqrt (Fin T))) in
  let d2 := fsub d1 (fmul (Fin sigma) (np_sqrt (Fin T))) in
  let C := fsub (fmul (Fin S) (N d1))
                (fmul (fmul (Fin K) (np_exp (Fin (- r * T)))) (N d2)) in
  Ret C.

Definition BS_PUT (S K T r sigma : R) : outcome npfloat :=
  q <- py_div S K ;;
  let N := norm_cdf in
  let d1 := fdiv (fadd (np_log (Fin q)) (Fin ((r + sigma ^ 2 / 2) * T)))
                 (fmul (Fin sigma) (np_sqrt (Fin T))) in
  let d2 := fsub d1 (fmul (Fin sigma) (np_sqrt (Fin T))) in
  let P := fsub (fmul (fmul (Fin K) (np_exp (Fin (- r * T)))) (N (fneg d2)))
                (fmul (Fin S) (N (fneg d1))) in
  Ret P.

(** The pricer called with a Python float for [sigma]: [S/K] is
    evaluated first, then [sigma**2]. *)
Definition BS_CALL_pyfloat (S K T r sigma : R) : outcome npfloat :=
  q <- py_div S K ;;
  sq <- py_pow sigma 2 ;;
  let N := norm_cdf in
  let d1 := fdiv (fadd (np_log (Fin q)) (Fin ((r + sq / 2) * T)))
                 (fmul (Fin sigma) (np_sqrt (Fin T))) in
  let d2 := fsub d1 (fmul (Fin sigma) (np_sqrt (Fin T))) in
  let C := fsub (fmul (Fin S) (N d1))
                (fmul (fmul (Fin K) (np_exp (Fin (- r * T)))) (N d2)) in
  Ret C.

Definition BS_PUT_pyfloat (S K T r sigma : R) : outcome npfloat :=
  q <- py_div S K ;;
  sq <- py_pow sigma 2 ;;
  let N := norm_cdf in
  let d1 := fdiv (fadd (np_log (Fin q)) (Fin ((r + sq / 2) * T)))
                 (fmul (Fin sigma) (np_sqrt (Fin T))) in
  let d2 := fsub d1 (fmul (Fin sigma) (np_sqrt (Fin T))) in
  let P := fsub (fmul (fmul (Fin K) (np_exp (Fin (- r * T)))) (N (fneg d2)))
                (fmul (Fin S) (N (fneg d1))) in
  Ret P.

(** ** Calibrator *)

Definition tolerance : R := 0.01.
Definition max_iterations : nat := 100.

(** What one [for] loop of [implied_volatility] did: the value of the
    loop's sigma at the start of every iteration it entered, the value
    sigma holds when the loop is left, and the volatility the loop
    assigns ([None] from the [else] of the [for]). *)
Record leg_run : Type := mk_run {
  visited : list R;
  final_sigma : R;
  vol : outcome (option R)
}.

(** The test of the loop body's [if]: [abs(e - m) < tolerance]. *)
Definition meets_tolerance (est : npfloat) (market : R) : bool :=
  flt (fabs (fsub est (Fin market))) (Fin tolerance).

(** The [elif]/[else] of the loop body: the next value of sigma. *)
Definition next_sigma (est : npfloat) (market sigma : R) : R :=
  if fgt est (Fin market) then sigma - sigma * 0.05 else sigma + sigma * 0.05.

(** A run that entered one more iteration, at [sigma], before [run]. *)
Definition entered (sigma : R) (run : leg_run) : leg_run :=
  mk_run (sigma :: visited run) (final_sigma run) (vol run).

(** The two loops of [implied_volatility] differ only in the pricer they
    call and the market price they compare with; [leg] is that loop with
    [n] iterations left. *)
Fixpoint leg (price : R -> outcome npfloat) (market : R) (n : nat) (sigma : R)
  : leg_run :=
  match n with
  | O => mk_run [] sigma (Ret None)
  | S n' =>
      match price sigma with
      | Raise e => mk_run [sigma] sigma (Raise e)
      | Ret est =>
          if meets_tolerance est market then
            mk_run [sigma] sigma (Ret (Some (py_round sigma 4)))
          else
            entered sigma (leg price market n' (next_sigma est market sigma))
      end
  end.

Definition call_leg (m_call S K T r initial_sigma : R) : leg_run :=
  leg (BS_CALL S K T r) m_call max_iterations initial_sigma.

Definition put_leg (m_put S K T r initial_sigma : R) : leg_run :=
  leg (BS_PUT S K T r) m_put max_iterations initial_sigma.

Definition implied_volatility (m_call m_put S K T r initial_sigma : R)
  : outcome (option R * option R) :=
  call_vol <- vol (call_leg m_call S K T r initial_sigma) ;;
  put_vol <- vol (put_leg m_put S K T r initial_sigma) ;;
  Ret (call_vol, put_vol).

(** [implied_volatility] called with a Python float for
    [initial_sigma]: the loops' sigma stays a Python float, and every
    call of the pricer takes its power in Python. *)
Definition call_leg_pyfloat (m_call S K T r initial_sigma : R) : leg_run :=
  leg (BS_CALL_pyfloat S K T r) m_call max_iterations initial_sigma.

Definition put_leg_pyfloat (m_put S K T r initial_sigma : R) : leg_run :=
  leg (BS_PUT_pyfloat S K T r) m_put max_iterations initial_sigma.

Definition implied_volatility_pyfloat (m_call m_put S K T r initial_sigma : R)
  : outcome (option R * option R) :=
  call_vol <- vol (call_leg_pyfloat m_call S K T r initial_sigma) ;;
  put_vol <- vol (put_leg_pyfloat m_put S K T r initial_sigma) ;;
  Ret (call_vol, put_vol).

(** ** The closed-form Black-Scholes prices over the reals *)

Definition bs_d1 (S K T r sigma : R) : R :=
  (ln (S / K) + (r + sigma ^ 2 / 2) * T) / (sigma * sqrt T).

Definition bs_d2 (S K T r sigma : R) : R :=
  bs_d1 S K T r sigma - sigma * sqrt T.

Definition call_formula (S K T r sigma : R) : R :=
  S * Phi (bs_d1 S K T r sigma) - K * exp (- (r * T)) * Phi (bs_d2 S K T r sigma).

Definition put_formula (S K T r sigma : R) : R :=
  K * exp (- (r * T)) * Phi (- bs_d2 S K T r sigma) - S * Phi (- bs_d1 S K T r sigma).

(** Derivative of [d1] in the volatility. *)
Definition bs_d1' (S K T r sigma : R) : R :=
  (ln (S / K) + r * T) / sqrt T * (- 1 / sigma²) + sqrt T / 2.

(** Vega: the derivative of the call price in the volatility. *)
Definition vega (S K T r sigma : R) : R :=
  S * gauss (bs_d1 S K T r sigma) * sqrt T / sqrt (2 * PI).


(** ** The search as the specification words it *)

(** The per-leg algorithm of the specification: start from the seed,
    repeat at most [n] times; accept when the estimate is within the
    tolerance of the market price, otherwise scale sigma by 0.95 when the
    estimate is above the market price and by 1.05 when it is not. *)
Fixpoint spec_search (price : R -> outcome npfloat) (market_price : R)
    (n : nat) (sigma : R) : outcome (option R) :=
  match n with
  | O => Ret None
  | S n' =>
      estimated <- price sigma ;;
      if flt (fabs (fsub estimated (Fin market_price))) (Fin 0.01) then
        Ret (Some (py_round sigma 4))
      else if fgt estimated (Fin market_price) then
        spec_search price market_price n' (sigma * 0.95)
      else
        spec_search price market_price n' (sigma * 1.05)
  end.

(** ** Wallis integrals, for the Gaussian integral *)

(** [cos_int k t] is the integral of [cos ^ k] from [0] to [t], by the
    reduction formula. *)
Fixpoint cos_int (k : nat) (t : R) : R :=
  match k with
  | O => t
  | S O => sin t
  | S (S j as k1) => cos t ^ k1 * sin t / INR k + INR k1 / INR k * cos_int j t
  end.

(** The Wallis integrals: [cos ^ k] integrated over [[0, PI/2]]. *)
Definition wallis (k : nat) : R := cos_int k (PI / 2).

(** The scale and the antiderivative of the rational upper bound
    [(1 + x^2 / (2 (m+1))) ^ (- (m+1))] of [gauss]. *)
Definition upper_scale (m : nat) : R := sqrt (2 * INR (S m)).

Definition upper (m : nat) (x : R) : R :=
  upper_scale m * cos_int (2 * m) (atan (/ upper_scale m * x)).

(** ** Callers of the pricer: the series behind the plots *)

(** A list comprehension [[f(x) for x in xs]]: the first exception ends it. *)
Fixpoint comprehension {A B : Type} (f : A -> outcome B) (xs : list A)
  : outcome (list B) :=
  match xs with
  | [] => Ret []
  | x :: xs' => y <- f x ;; ys <- comprehension f xs' ;; Ret (y :: ys)
  end.

(** The ceiling of a real. *)
Definition R_ceil (x : R) : Z := (- Int_part (- x))%Z.

(** [np.arange(start, stop, step)]: [ceil((stop - start) / step)] values
    [start + i * step]. *)
Definition np_arange (start stop step : R) : list R :=
  map (fun i => start + INR i * step)
      (seq 0 (Z.to_nat (R_ceil ((stop - start) / step)))).

(** [plot_sigma_change] up to the drawing: the abscissas and the two
    series it hands to [plt.plot]. *)
Definition plot_sigma_change (S K T r : R)
  : outcome (list R * list npfloat * list npfloat) :=
  let Sigmas := np_arange 0.01 1.5 0.01 in
  calls <- comprehension (fun sig => BS_CALL S K T r sig) Sigmas ;;
  puts <- comprehension (fun sig => BS_PUT S K T r sig) Sigmas ;;
  Ret (Sigmas, calls, puts).


(** [a == b] on floats. *)
Definition Req_bool (a b : R) : bool := if Req_dec_T a b then true else false.

(** The rows of an option chain, as (strike, lastPrice); the other
    columns are not read.  Strikes and prices are numbers: a NaN, which
    equals nothing, itself included, is not represented. *)
Definition chain_rows : Type := list (R * R).

(** [rows[rows['strike'] == strike]]. *)
Definition rows_at (rows : chain_rows) (strike : R) : chain_rows :=
  filter (fun row => Req_bool (fst row) strike) rows.

(** One of the two loops of [plot_implied_volatility], over the strikes
    still to come: the (strike, volatility) pairs handed to [scatter].
    [vol_of m strike] is the call of [implied_volatility] the loop makes
    and the component it keeps. *)
Fixpoint scatter_points (vol_of : R -> R -> outcome (option R))
    (rows : chain_rows) (strikes : list R) : outcome (list (R * option R)) :=
  match strikes with
  | [] => Ret []
  | strike :: rest =>
      match rows_at rows strike with
      | [] => scatter_points vol_of rows rest
      | row :: _ =>
          v <- vol_of (snd row) strike ;;
          pts <- scatter_points vol_of rows rest ;;
          Ret ((strike, v) :: pts)
      end
  end.

(** [plot_implied_volatility] up to the drawing, on the chain it fetched. *)
Definition plot_implied_volatility (calls puts : chain_rows)
    (T S r original_sigma : R)
  : outcome (list (R * option R) * list (R * option R)) :=
  call_points <-
    scatter_points
      (fun m_call_price strike =>
         omap fst (implied_volatility m_call_price 0 S strike T r original_sigma))
      calls (map fst calls) ;;
  put_points <-
    scatter_points
      (fun m_put_price strike =>
         omap snd (implied_volatility 0 m_put_price S strike T r original_sigma))
      puts (map fst puts) ;;
  Ret (call_points, put_points).

(** The five lists [plot_compare_prices_with_maturities] fills.  A date
    is its distance from today in days. *)
Record price_lists : Type := mk_lists {
  market_call_prices : list R;
  bs_call_prices : list npfloat;
  market_put_prices : list R;
  bs_put_prices : list npfloat;
  valid_dates : list Z
}.

(** The body of the [for date in options_dates] loop, with its
    [try ... except: pass]: what was appended before an exception stays.
    [option_chain date] is [None] when the fetch raises. *)
Definition compare_date (option_chain : Z -> option (chain_rows * chain_rows))
    (strike S r sigma : R) (st : price_lists) (date : Z) : price_lists :=
  match option_chain date with
  | None => st
  | Some (calls, puts) =>
      match rows_at calls strike, rows_at puts strike with
      | filtered_call :: _, filtered_put :: _ =>
          let T := IZR date / 365 in
          let st1 :=
            mk_lists (market_call_prices st ++ [snd filtered_call])
                     (bs_call_prices st) (market_put_prices st)
                     (bs_put_prices st) (valid_dates st) in
          match BS_CALL S strike T r sigma with
          | Raise _ => st1
          | Ret c =>
              let st2 :=
                mk_lists (market_call_prices st1) (bs_call_prices st1 ++ [c])
                         (market_put_prices st1 ++ [snd filtered_put])
                         (bs_put_prices st1) (valid_dates st1) in
              match BS_PUT S strike T r sigma with
              | Raise _ => st2
              | Ret p =>
                  mk_lists (market_call_prices st2) (bs_call_prices st2)
                           (market_put_prices st2) (bs_put_prices st2 ++ [p])
                           (valid_dates st2 ++ [date])
              end
          end
      | _, _ => st
      end
  end.

(** [plot_compare_prices_with_maturities] up to the drawing. *)
Definition plot_compare_prices_with_maturities
    (option_chain : Z -> option (chain_rows * chain_rows))
    (options_dates : list Z) (strike S r sigma : R) : price_lists :=
  fold_left (compare_date option_chain strike S r sigma) options_dates
            (mk_lists [] [] [] [] []).

(** In sync: the five lists have one length. *)
Definition in_sync (st : price_lists) : Prop :=
  length (market_call_prices st) = length (valid_dates st)
  /\ length (bs_call_prices st) = length (valid_dates st)
  /\ length (market_put_prices st) = length (valid_dates st)
  /\ length (bs_put_prices st) = length (valid_dates st).

(** With a zero strike only [market_call_prices] ever grows. *)
Definition only_market_calls (st : price_lists) : Prop :=
  bs_call_prices st = [] /\ market_put_prices st = []
  /\ bs_put_prices st = [] /\ valid_dates st = [].

(** * Properties *)

Lemma sigma_sqrtT_pos : forall T sigma, 0 < T -> 0 < sigma -> 0 < sigma * sqrt T.
Proof.
  intros T sigma HT Hs. apply Rmult_lt_0_compat; [exact Hs | now apply sqrt_lt_R0].
Qed.

Lemma ratio_pos : forall S K, 0 < S -> 0 < K -> 0 < S / K.
Proof. intros S K HS HK. now apply Rdiv_lt_0_compat. Qed.

Lemma BS_CALL_valid :
  forall S K T r sigma, 0 < S -> 0 < K -> 0 < T -> 0 < sigma ->
    BS_CALL S K T r sigma = Ret (Fin (call_formula S K T r sigma)).
Proof.
  intros S K T r sigma HS HK HT Hs.
  pose proof (sigma_sqrtT_pos T sigma HT Hs) as Hden.
  pose proof (ratio_pos S K HS HK) as Hq.
  unfold BS_CALL, py_div.
  destruct (Req_dec_T K 0) as [HK0 | _]; [lra |].
  cbn [bind np_log np_sqrt np_exp fmul fadd].
  destruct (total_order_T (S / K) 0) as [[Hlt | Heq] | _]; [lra | lra |].
  destruct (Rlt_dec T 0) as [HT0 | _]; [lra |].
  cbn [fdiv fmul fadd].
  destruct (Req_dec_T (sigma * sqrt T) 0) as [H0 | _]; [lra |].
  cbn. unfold call_formula, bs_d2, bs_d1.
  replace (- r * T) with (- (r * T)) by ring.
  reflexivity.
Qed.

Lemma BS_PUT_valid :
  forall S K T r sigma, 0 < S -> 0 < K -> 0 < T -> 0 < sigma ->
    BS_PUT S K T r sigma = Ret (Fin (put_formula S K T r sigma)).
Proof.
  intros S K T r sigma HS HK HT Hs.
  pose proof (sigma_sqrtT_pos T sigma HT Hs) as Hden.
  pose proof (ratio_pos S K HS HK) as Hq.
  unfold BS_PUT, py_div.
  destruct (Req_dec_T K 0) as [HK0 | _]; [lra |].
  cbn [bind np_log np_sqrt np_exp fmul fadd].
  destruct (total_order_T (S / K) 0) as [[Hlt | Heq] | _]; [lra | lra |].
  destruct (Rlt_dec T 0) as [HT0 | _]; [lra |].
  cbn [fdiv fmul fadd].
  destruct (Req_dec_T (sigma * sqrt T) 0) as [H0 | _]; [lra |].
  cbn. unfold put_formula, bs_d2, bs_d1.
  replace (- r * T) with (- (r * T)) by ring.
  reflexivity.
Qed.

(** ** Calculus on the normal distribution *)

(** A derivative only depends on the function near the point. *)
Lemma derivable_pt_lim_local :
  forall (f g : R -> R) (x l d : R), 0 < d ->
    (forall y, Rabs (y - x) < d -> f y = g y) ->
    derivable_pt_lim g x l -> derivable_pt_lim f x l.
Proof.
  intros f g x l d Hd Heq Hg eps Heps.
  destruct (Hg eps Heps) as [delta Hdelta].
  assert (Hm : 0 < Rmin delta d) by (apply Rmin_pos; [apply cond_pos | exact Hd]).
  exists (mkposreal _ Hm). intros h Hh0 Hh. simpl in Hh.
  rewrite (Heq (x + h)), (Heq x).
  - apply Hdelta; [exact Hh0 |].
    eapply Rlt_le_trans; [exact Hh | apply Rmin_l].
  - replace (x - x) with 0 by ring. rewrite Rabs_R0. exact Hd.
  - replace (x + h - x) with h by ring.
    eapply Rlt_le_trans; [exact Hh | apply Rmin_r].
Qed.

Lemma zero_derivative_constant :
  forall f : R -> R, (forall x, derivable_pt_lim f x 0) -> forall x y, f x = f y.
Proof.
  intros f Hf.
  set (pr := fun x => exist (fun l => derivable_pt_abs f x l) 0 (Hf x) : derivable_pt f x).
  assert (Hc : constant f).
  { apply (null_derivative_1 f pr). intro x. apply derive_pt_eq_0, Hf. }
  exact Hc.
Qed.

Lemma gauss_int_0 : gauss_int 0 = 0.
Proof. unfold gauss_int. apply RiemannInt_P9. Qed.

(** The fundamental theorem of calculus for [gauss_int]. *)
Lemma gauss_int_derivable : forall x, derivable_pt_lim gauss_int x (gauss x).
Proof.
  intro x.
  set (a := - (Rabs x + 1)). set (b := Rabs x + 1).
  assert (hab : a <= b) by (unfold a, b; pose proof (Rabs_pos x); lra).
  assert (C0 : forall y, a <= y <= b -> continuity_pt gauss y)
    by (intros; apply gauss_continuous).
  assert (Hx : a <= x <= b).
  { unfold a, b, Rabs. destruct (Rcase_abs x); lra. }
  apply (derivable_pt_lim_local gauss_int
           (primitive hab (FTC_P1 hab C0) - fct_cte (RiemannInt (gauss_integrable a 0)))%F
           x (gauss x) 1).
  - lra.
  - intros y Hy.
    assert (Hy' : a <= y <= b).
    { unfold a, b. revert Hy. unfold Rabs.
      destruct (Rcase_abs (y - x)); destruct (Rcase_abs x); lra. }
    unfold minus_fct, fct_cte, primitive.
    destruct (Rle_dec a y) as [Hay | Hay]; [| lra].
    destruct (Rle_dec y b) as [Hyb | Hyb]; [| lra].
    unfold gauss_int.
    rewrite <- (RiemannInt_P26 (gauss_integrable a 0) (gauss_integrable 0 y)
                  (FTC_P1 hab C0 Hay Hyb)).
    ring.
  - replace (gauss x) with (gauss x - 0) by ring.
    apply derivable_pt_lim_minus.
    + apply RiemannInt_P28. exact Hx.
    + apply derivable_pt_lim_const.
Qed.

Lemma gauss_even : forall t, gauss (- t) = gauss t.
Proof.
  intro t. unfold gauss.
  replace (- t * - t) with (t * t) by ring. reflexivity.
Qed.

Lemma gauss_pos : forall t, 0 < gauss t.
Proof. intro t. apply exp_pos. Qed.

Lemma gauss_int_odd : forall x, gauss_int (- x) = - gauss_int x.
Proof.
  intro x.
  set (h := (gauss_int + comp gauss_int (- id))%F).
  assert (Hh : forall y, derivable_pt_lim h y 0).
  { intro y. unfold h.
    replace 0 with (gauss y + gauss (- y) * - 1) by (rewrite gauss_even; ring).
    apply derivable_pt_lim_plus.
    - apply gauss_int_derivable.
    - apply derivable_pt_lim_comp.
      + apply derivable_pt_lim_opp, derivable_pt_lim_id.
      + apply gauss_int_derivable. }
  pose proof (zero_derivative_constant h Hh x 0) as E.
  unfold h, plus_fct, comp, opp_fct, id in E.
  replace (- 0) with 0 in E by ring.
  rewrite gauss_int_0 in E. lra.
Qed.

Lemma sqrt_2PI_pos : 0 < sqrt (2 * PI).
Proof. apply sqrt_lt_R0. pose proof PI_RGT_0. lra. Qed.

(** Symmetry of the normal distribution. *)
Lemma Phi_opp : forall x, Phi (- x) = 1 - Phi x.
Proof.
  intro x. unfold Phi. rewrite gauss_int_odd.
  pose proof sqrt_2PI_pos. field. lra.
Qed.

Lemma Phi_derivable :
  forall x, derivable_pt_lim Phi x (gauss x / sqrt (2 * PI)).
Proof.
  intro x.
  apply (derivable_pt_lim_local Phi
           (fct_cte (1 / 2) + mult_real_fct (/ sqrt (2 * PI)) gauss_int)%F
           x _ 1).
  - lra.
  - intros y _. unfold Phi, plus_fct, fct_cte, mult_real_fct. field.
    pose proof sqrt_2PI_pos. lra.
  - replace (gauss x / sqrt (2 * PI)) with (0 + / sqrt (2 * PI) * gauss x)
      by (unfold Rdiv; ring).
    apply derivable_pt_lim_plus.
    + apply derivable_pt_lim_const.
    + apply derivable_pt_lim_scal, gauss_int_derivable.
Qed.

(** ** Put-call parity and vega of the closed forms *)

Lemma parity_formula :
  forall S K T r sigma,
    call_formula S K T r sigma - put_formula S K T r sigma = S - K * exp (- (r * T)).
Proof.
  intros. unfold call_formula, put_formula.
  rewrite !Phi_opp. ring.
Qed.

Lemma derivable_pt_lim_ext :
  forall (f g : R -> R) (x l : R),
    (forall y, f y = g y) -> derivable_pt_lim g x l -> derivable_pt_lim f x l.
Proof.
  intros f g x l H. apply (derivable_pt_lim_local f g x l 1); [lra | intros; apply H].
Qed.

Lemma d1_split :
  forall L r s w, s <> 0 -> w <> 0 ->
    (L + (r + s ^ 2 / 2) * (w * w)) / (s * w) = (L + r * (w * w)) / w * / s + w / 2 * s.
Proof. intros. field. split; assumption. Qed.

Lemma bs_d1_derivable :
  forall S K T r sigma, 0 < T -> 0 < sigma ->
    derivable_pt_lim (bs_d1 S K T r) sigma (bs_d1' S K T r sigma).
Proof.
  intros S K T r sigma HT Hs.
  assert (Hw : 0 < sqrt T) by now apply sqrt_lt_R0.
  assert (HTw : T = sqrt T * sqrt T) by (symmetry; apply sqrt_sqrt; lra).
  apply (derivable_pt_lim_local _
           (fct_cte ((ln (S / K) + r * T) / sqrt T) / id
            + mult_real_fct (sqrt T / 2) id)%F _ _ sigma Hs).
  - intros y Hy.
    assert (Hy0 : 0 < y).
    { revert Hy. unfold Rabs. destruct (Rcase_abs (y - sigma)); lra. }
    unfold bs_d1, plus_fct, mult_real_fct, div_fct, fct_cte, id.
    set (w := sqrt T) in *. rewrite HTw at 1 2.
    rewrite d1_split by lra. reflexivity.
  - set (A := (ln (S / K) + r * T) / sqrt T).
    replace (bs_d1' S K T r sigma)
      with ((0 * id sigma - 1 * fct_cte A sigma) / (id sigma)² + sqrt T / 2 * 1)
      by (unfold bs_d1', fct_cte, id, Rsqr; fold A; field; lra).
    apply derivable_pt_lim_plus.
    + apply derivable_pt_lim_div;
        [apply derivable_pt_lim_const | apply derivable_pt_lim_id | unfold id; lra].
    + apply derivable_pt_lim_scal, derivable_pt_lim_id.
Qed.

Lemma bs_d2_derivable :
  forall S K T r sigma, 0 < T -> 0 < sigma ->
    derivable_pt_lim (bs_d2 S K T r) sigma (bs_d1' S K T r sigma - sqrt T).
Proof.
  intros S K T r sigma HT Hs.
  apply (derivable_pt_lim_ext _ (bs_d1 S K T r - mult_real_fct (sqrt T) id)%F).
  - intro y. unfold bs_d2, minus_fct, mult_real_fct, id. ring.
  - apply derivable_pt_lim_minus.
    + now apply bs_d1_derivable.
    + replace (sqrt T) with (sqrt T * 1) at 2 by ring.
      apply derivable_pt_lim_scal, derivable_pt_lim_id.
Qed.

(** The identity behind vega: [S * phi(d1) = K * exp(-rT) * phi(d2)]. *)
Lemma gauss_d1_d2 :
  forall S K T r sigma, 0 < S -> 0 < K -> 0 < T -> 0 < sigma ->
    K * exp (- (r * T)) * gauss (bs_d2 S K T r sigma) = S * gauss (bs_d1 S K T r sigma).
Proof.
  intros S K T r sigma HS HK HT Hs.
  pose proof (sigma_sqrtT_pos T sigma HT Hs) as Hden.
  assert (Hw : 0 < sqrt T) by now apply sqrt_lt_R0.
  assert (HTw : sqrt T * sqrt T = T) by (apply sqrt_sqrt; lra).
  set (d := bs_d1 S K T r sigma).
  assert (Hd : d * (sigma * sqrt T) = ln (S / K) + (r + sigma ^ 2 / 2) * T).
  { unfold d, bs_d1. field. lra. }
  assert (E : - (bs_d2 S K T r sigma * bs_d2 S K T r sigma / 2)
              = - (d * d / 2) + (ln (S / K) + r * T)).
  { unfold bs_d2. fold d.
    replace (- ((d - sigma * sqrt T) * (d - sigma * sqrt T) / 2))
      with (- (d * d / 2) + d * (sigma * sqrt T) - sigma ^ 2 * (sqrt T * sqrt T) / 2)
      by field.
    rewrite Hd, HTw. field. }
  unfold gauss at 1. rewrite E.
  rewrite !exp_plus, exp_ln by (now apply ratio_pos).
  fold (gauss d).
  replace (K * exp (- (r * T)) * (gauss d * (S / K * exp (r * T))))
    with (S * gauss d * (exp (- (r * T)) * exp (r * T))) by (field; lra).
  rewrite <- exp_plus. replace (- (r * T) + r * T) with 0 by ring.
  rewrite exp_0. ring.
Qed.

Lemma vega_pos :
  forall S K T r sigma, 0 < S -> 0 < T -> 0 < vega S K T r sigma.
Proof.
  intros S K T r sigma HS HT. unfold vega.
  apply Rdiv_lt_0_compat; [| apply sqrt_2PI_pos].
  apply Rmult_lt_0_compat; [| now apply sqrt_lt_R0].
  apply Rmult_lt_0_compat; [exact HS | apply gauss_pos].
Qed.

Lemma call_formula_derivable :
  forall S K T r sigma, 0 < S -> 0 < K -> 0 < T -> 0 < sigma ->
    derivable_pt_lim (call_formula S K T r) sigma (vega S K T r sigma).
Proof.
  intros S K T r sigma HS HK HT Hs.
  pose proof sqrt_2PI_pos as Hpi.
  set (l1 := bs_d1' S K T r sigma).
  apply (derivable_pt_lim_ext _
           (mult_real_fct S (comp Phi (bs_d1 S K T r))
            - mult_real_fct (K * exp (- (r * T))) (comp Phi (bs_d2 S K T r)))%F).
  - intro y. reflexivity.
  - replace (vega S K T r sigma)
      with (S * (gauss (bs_d1 S K T r sigma) / sqrt (2 * PI) * l1)
            - K * exp (- (r * T))
              * (gauss (bs_d2 S K T r sigma) / sqrt (2 * PI) * (l1 - sqrt T))).
    + apply derivable_pt_lim_minus; apply derivable_pt_lim_scal;
        apply derivable_pt_lim_comp;
        try apply Phi_derivable.
      * now apply bs_d1_derivable.
      * now apply bs_d2_derivable.
    + unfold vega.
      pose proof (gauss_d1_d2 S K T r sigma HS HK HT Hs) as E.
      replace (K * exp (- (r * T))
               * (gauss (bs_d2 S K T r sigma) / sqrt (2 * PI) * (l1 - sqrt T)))
        with (K * exp (- (r * T)) * gauss (bs_d2 S K T r sigma)
              * ((l1 - sqrt T) / sqrt (2 * PI))) by (field; lra).
      rewrite E. field. lra.
Qed.

(** The call price does not decrease when the volatility grows. *)
Lemma call_formula_monotone :
  forall S K T r s1 s2, 0 < S -> 0 < K -> 0 < T -> 0 < s1 -> s1 <= s2 ->
    call_formula S K T r s1 <= call_formula S K T r s2.
Proof.
  intros S K T r s1 s2 HS HK HT H1 H12.
  destruct H12 as [Hlt | ->]; [| apply Rle_refl].
  destruct (MVT_cor2 (call_formula S K T r) (vega S K T r) s1 s2 Hlt) as (c & Hc & Hin).
  - intros c Hc. apply call_formula_derivable; lra.
  - pose proof (vega_pos S K T r c HS HT) as Hv.
    assert (0 <= vega S K T r c * (s2 - s1)) by (apply Rmult_le_pos; lra).
    lra.
Qed.

Lemma put_formula_monotone :
  forall S K T r s1 s2, 0 < S -> 0 < K -> 0 < T -> 0 < s1 -> s1 <= s2 ->
    put_formula S K T r s1 <= put_formula S K T r s2.
Proof.
  intros S K T r s1 s2 HS HK HT H1 H12.
  pose proof (call_formula_monotone S K T r s1 s2 HS HK HT H1 H12).
  pose proof (parity_formula S K T r s1).
  pose proof (parity_formula S K T r s2).
  lra.
Qed.

(** ** The search loop *)

Lemma leg_raise : forall price market n sigma e,
  price sigma = Raise e ->
  leg price market (S n) sigma = mk_run [sigma] sigma (Raise e).
Proof. intros * H. cbn [leg]. rewrite H. reflexivity. Qed.

Lemma leg_accept : forall price market n sigma est,
  price sigma = Ret est -> meets_tolerance est market = true ->
  leg price market (S n) sigma = mk_run [sigma] sigma (Ret (Some (py_round sigma 4))).
Proof.
  intros * H Hm. cbn [leg]. rewrite H, Hm. reflexivity.
Qed.

Lemma leg_continue : forall price market n sigma est,
  price sigma = Ret est -> meets_tolerance est market = false ->
  leg price market (S n) sigma =
    entered sigma (leg price market n (next_sigma est market sigma)).
Proof.
  intros * H Hm. cbn [leg]. rewrite H, Hm. reflexivity.
Qed.

(** The three ways through one iteration. *)
Lemma leg_cases : forall price market n sigma,
  (exists e, price sigma = Raise e /\
             leg price market (S n) sigma = mk_run [sigma] sigma (Raise e)) \/
  (exists est, price sigma = Ret est /\ meets_tolerance est market = true /\
             leg price market (S n) sigma
             = mk_run [sigma] sigma (Ret (Some (py_round sigma 4)))) \/
  (exists est, price sigma = Ret est /\ meets_tolerance est market = false /\
             leg price market (S n) sigma
             = entered sigma (leg price market n (next_sigma est market sigma))).
Proof.
  intros. destruct (price sigma) as [est | e] eqn:Hp.
  - destruct (meets_tolerance est market) eqn:Hm.
    + right; left. exists est. repeat split; trivial. now apply (leg_accept _ _ _ _ est).
    + right; right. exists est. repeat split; trivial. now apply (leg_continue _ _ _ _ est).
  - left. exists e. split; trivial. now apply leg_raise.
Qed.

Lemma next_sigma_pos : forall est market sigma, 0 < sigma -> 0 < next_sigma est market sigma.
Proof. intros. unfold next_sigma. destruct (fgt est (Fin market)); lra. Qed.

Lemma next_sigma_scaled : forall est market sigma,
  next_sigma est market sigma = if fgt est (Fin market) then sigma * 0.95 else sigma * 1.05.
Proof. intros. unfold next_sigma. destruct (fgt est (Fin market)); lra. Qed.

(** The loop body runs at most [n] times. *)
Lemma leg_iterations : forall price market n sigma,
  (length (visited (leg price market n sigma)) <= n)%nat.
Proof.
  intros price market n. induction n as [| n IH]; intro sigma.
  - simpl. lia.
  - destruct (leg_cases price market n sigma)
      as [(e & _ & ->) | [(est & _ & _ & ->) | (est & _ & _ & ->)]]; simpl.
    + lia.
    + lia.
    + specialize (IH (next_sigma est market sigma)). lia.
Qed.

(** Every value the loop gives to sigma is positive when the seed is. *)
Lemma leg_positive : forall price market n sigma, 0 < sigma ->
  Forall (fun s => 0 < s) (visited (leg price market n sigma))
  /\ 0 < final_sigma (leg price market n sigma).
Proof.
  intros price market n. induction n as [| n IH]; intros sigma Hs.
  - simpl. split; [constructor | exact Hs].
  - destruct (leg_cases price market n sigma)
      as [(e & _ & ->) | [(est & _ & _ & ->) | (est & _ & _ & ->)]]; simpl.
    + split; [repeat constructor |]; exact Hs.
    + split; [repeat constructor |]; exact Hs.
    + destruct (IH _ (next_sigma_pos est market sigma Hs)) as [Hv Hf].
      split; [constructor |]; assumption.
Qed.

(** A volatility the loop returns is the rounding of a visited sigma. *)
Lemma leg_some : forall price market n sigma v,
  vol (leg price market n sigma) = Ret (Some v) ->
  exists s, In s (visited (leg price market n sigma)) /\ v = py_round s 4.
Proof.
  intros price market n. induction n as [| n IH]; intros sigma v.
  - simpl. discriminate.
  - destruct (leg_cases price market n sigma)
      as [(e & _ & ->) | [(est & _ & _ & ->) | (est & _ & _ & ->)]]; simpl.
    + discriminate.
    + intro H. injection H as <-. exists sigma. split; [now left | reflexivity].
    + intro H. destruct (IH _ _ H) as (s & Hin & ->).
      exists s. split; [now right | reflexivity].
Qed.

(** A pricer that never raises makes the loop return. *)
Lemma leg_returns : forall price market n sigma,
  (forall s, exists est, price s = Ret est) ->
  exists v, vol (leg price market n sigma) = Ret v.
Proof.
  intros price market n sigma Hp. revert sigma.
  induction n as [| n IH]; intro sigma.
  - exists None. reflexivity.
  - destruct (leg_cases price market n sigma)
      as [(e & He & _) | [(est & _ & _ & ->) | (est & _ & _ & ->)]]; simpl.
    + destruct (Hp sigma) as [est Hest]. congruence.
    + eauto.
    + apply IH.
Qed.

(** When no visited sigma meets the tolerance the loop uses its whole
    budget and falls into the [else] of the [for]. *)
Lemma leg_exhausted : forall price market n sigma,
  (forall s, exists est, price s = Ret est) ->
  (forall s est, In s (visited (leg price market n sigma)) ->
                 price s = Ret est -> meets_tolerance est market = false) ->
  vol (leg price market n sigma) = Ret None
  /\ length (visited (leg price market n sigma)) = n.
Proof.
  intros price market n sigma Hp. revert sigma.
  induction n as [| n IH]; intros sigma Hno.
  - split; reflexivity.
  - destruct (leg_cases price market n sigma)
      as [(e & He & _) | [(est & Hest & Hm & E) | (est & Hest & Hm & E)]].
    + destruct (Hp sigma) as [est Hest]. congruence.
    + rewrite E in Hno. simpl in Hno.
      rewrite (Hno sigma est (or_introl eq_refl) Hest) in Hm. discriminate.
    + rewrite E in *. simpl in *.
      destruct (IH (next_sigma est market sigma)) as [Hv Hl].
      * intros s est' Hin. apply Hno. now right.
      * split; [exact Hv | now rewrite Hl].
Qed.

(** ** The pricer outside its preconditions *)

Lemma BS_CALL_returns : forall S K T r sigma,
  K <> 0 -> exists c, BS_CALL S K T r sigma = Ret c.
Proof.
  intros * HK. unfold BS_CALL, py_div.
  destruct (Req_dec_T K 0); [contradiction |]. simpl. eauto.
Qed.

Lemma BS_PUT_returns : forall S K T r sigma,
  K <> 0 -> exists p, BS_PUT S K T r sigma = Ret p.
Proof.
  intros * HK. unfold BS_PUT, py_div.
  destruct (Req_dec_T K 0); [contradiction |]. simpl. eauto.
Qed.

Lemma BS_CALL_zero_strike : forall S T r sigma,
  BS_CALL S 0 T r sigma = Raise ZeroDivisionError.
Proof.
  intros. unfold BS_CALL, py_div.
  destruct (Req_dec_T 0 0); [reflexivity | contradiction].
Qed.

Lemma BS_PUT_zero_strike : forall S T r sigma,
  BS_PUT S 0 T r sigma = Raise ZeroDivisionError.
Proof.
  intros. unfold BS_PUT, py_div.
  destruct (Req_dec_T 0 0); [reflexivity | contradiction].
Qed.

Lemma fdiv_NaN_r : forall a, fdiv a NaN = NaN.
Proof. now destruct a. Qed.

(** A negative maturity makes [np.sqrt] return NaN, which reaches the price. *)
Lemma BS_CALL_negative_T : forall S K T r sigma,
  K <> 0 -> T < 0 -> BS_CALL S K T r sigma = Ret NaN.
Proof.
  intros * HK HT. unfold BS_CALL, py_div.
  destruct (Req_dec_T K 0); [contradiction |].
  cbn [bind np_sqrt]. destruct (Rlt_dec T 0); [| lra].
  cbn [fmul]. rewrite fdiv_NaN_r. reflexivity.
Qed.

Lemma BS_PUT_negative_T : forall S K T r sigma,
  K <> 0 -> T < 0 -> BS_PUT S K T r sigma = Ret NaN.
Proof.
  intros * HK HT. unfold BS_PUT, py_div.
  destruct (Req_dec_T K 0); [contradiction |].
  cbn [bind np_sqrt]. destruct (Rlt_dec T 0); [| lra].
  cbn [fmul]. rewrite fdiv_NaN_r. reflexivity.
Qed.

(** A zero volatility passes unnoticed too: the division by zero gives
    an infinite [d1] and the price is the finite [S - K * exp (-rT)]. *)
Example BS_CALL_zero_sigma : BS_CALL 2 1 1 0 0 = Ret (Fin 1).
Proof.
  unfold BS_CALL, py_div.
  destruct (Req_dec_T 1 0) as [H | _]; [lra |].
  cbn [bind np_log np_sqrt].
  assert (Hln : 0 < ln (2 / 1)).
  { rewrite <- ln_1. apply ln_increasing; lra. }
  destruct (total_order_T (2 / 1) 0) as [[H | H] | _]; [lra | lra |].
  destruct (Rlt_dec 1 0) as [H | _]; [lra |].
  cbn [fadd fmul fdiv].
  destruct (Req_dec_T (0 * sqrt 1) 0) as [_ | H]; [| lra].
  unfold inf_times.
  destruct (total_order_T (ln (2 / 1) + (0 + 0 ^ 2 / 2) * 1) 0) as [[H | H] | _];
    [lra | lra |].
  cbn. replace (- 0 * 1) with 0 by ring. rewrite exp_0.
  f_equal. f_equal. lra.
Qed.

(** ** Rounding *)

Lemma Int_part_nonneg : forall x, 0 <= x -> (0 <= Int_part x)%Z.
Proof.
  intros x Hx. destruct (base_Int_part x) as [_ H].
  assert (Hlt : IZR (-1) < IZR (Int_part x)) by (simpl; lra).
  apply lt_IZR in Hlt. lia.
Qed.

Lemma round_half_even_nonneg : forall x, 0 <= x -> (0 <= round_half_even x)%Z.
Proof.
  intros x Hx. pose proof (Int_part_nonneg x Hx). unfold round_half_even.
  destruct (Rlt_dec (frac_part x) (1 / 2)); [assumption |].
  destruct (Rlt_dec (1 / 2) (frac_part x)); [lia |].
  destruct (Z.even (Int_part x)); lia.
Qed.

Lemma py_round_nonneg : forall x n, 0 <= x -> 0 <= py_round x n.
Proof.
  intros x n Hx. unfold py_round.
  assert (Hp : 0 < 10 ^ n) by (apply pow_lt; lra).
  apply Rmult_le_pos.
  - apply IZR_le, round_half_even_nonneg. apply Rmult_le_pos; lra.
  - left. now apply Rinv_0_lt_compat.
Qed.

Lemma leg_refines_spec_search : forall price market n sigma,
  vol (leg price market n sigma) = spec_search price market n sigma.
Proof.
  intros price market n. induction n as [| n IH]; intro sigma.
  - reflexivity.
  - destruct (leg_cases price market n sigma)
      as [(e & He & ->) | [(est & He & Hm & ->) | (est & He & Hm & ->)]];
      cbn [vol entered spec_search]; rewrite He; cbn [bind].
    + reflexivity.
    + unfold meets_tolerance, tolerance in Hm. rewrite Hm. reflexivity.
    + unfold meets_tolerance, tolerance in Hm. rewrite Hm.
      rewrite IH, next_sigma_scaled.
      destruct (fgt est (Fin market)); reflexivity.
Qed.

(** The ties of [round] go to the even neighbour. *)
Lemma Int_part_of : forall (x : R) (z : Z),
  IZR z <= x < IZR z + 1 -> Int_part x = z.
Proof.
  intros x z H. symmetry. apply Int_part_spec. lra.
Qed.

Example round_half_even_tie_down : round_half_even 2.5 = 2%Z.
Proof.
  unfold round_half_even, frac_part.
  rewrite (Int_part_of 2.5 2) by lra.
  destruct (Rlt_dec (2.5 - 2) (1 / 2)); [lra |].
  destruct (Rlt_dec (1 / 2) (2.5 - 2)); [lra |]. reflexivity.
Qed.

Example round_half_even_tie_up : round_half_even 3.5 = 4%Z.
Proof.
  unfold round_half_even, frac_part.
  rewrite (Int_part_of 3.5 3) by lra.
  destruct (Rlt_dec (3.5 - 3) (1 / 2)); [lra |].
  destruct (Rlt_dec (1 / 2) (3.5 - 3)); [lra |]. reflexivity.
Qed.

Example py_round_4_digits : py_round 0.20004 4 = 0.2.
Proof.
  unfold py_round, round_half_even, frac_part.
  replace (0.20004 * 10 ^ 4) with 2000.4 by lra.
  rewrite (Int_part_of 2000.4 2000) by lra.
  destruct (Rlt_dec (2000.4 - 2000) (1 / 2)); lra.
Qed.

(** ** The two legs of [implied_volatility] *)

Lemma implied_volatility_zero_strike : forall m_call m_put S T r initial_sigma,
  implied_volatility m_call m_put S 0 T r initial_sigma = Raise ZeroDivisionError.
Proof.
  intros. unfold implied_volatility, call_leg, max_iterations.
  rewrite (leg_raise _ _ _ _ ZeroDivisionError) by apply BS_CALL_zero_strike.
  reflexivity.
Qed.

Lemma implied_volatility_returns : forall m_call m_put S K T r initial_sigma,
  K <> 0 ->
  exists call_vol put_vol,
    vol (call_leg m_call S K T r initial_sigma) = Ret call_vol
    /\ vol (put_leg m_put S K T r initial_sigma) = Ret put_vol
    /\ implied_volatility m_call m_put S K T r initial_sigma = Ret (call_vol, put_vol).
Proof.
  intros * HK.
  destruct (leg_returns (BS_CALL S K T r) m_call max_iterations initial_sigma)
    as [cv Hc]; [intro s; now apply BS_CALL_returns |].
  destruct (leg_returns (BS_PUT S K T r) m_put max_iterations initial_sigma)
    as [pv Hp]; [intro s; now apply BS_PUT_returns |].
  exists cv, pv. unfold implied_volatility, call_leg, put_leg.
  rewrite Hc, Hp. repeat split.
Qed.

(** ** The Gaussian integral *)

(** Comparing two functions through their derivatives. *)
Lemma derivative_le_compare :
  forall (f g f' g' : R -> R) (a b : R), a <= b ->
    (forall c, a <= c <= b -> derivable_pt_lim f c (f' c)) ->
    (forall c, a <= c <= b -> derivable_pt_lim g c (g' c)) ->
    (forall c, a <= c <= b -> f' c <= g' c) ->
    f b - f a <= g b - g a.
Proof.
  intros f g f' g' a b [Hab | <-] Hf Hg Hle; [| lra].
  destruct (MVT_cor2 (g - f)%F (fun c => g' c - f' c) a b Hab) as (c & Hc & Hin).
  - intros c Hc. apply derivable_pt_lim_minus; [now apply Hg | now apply Hf].
  - unfold minus_fct in Hc.
    assert (0 <= (g' c - f' c) * (b - a)).
    { apply Rmult_le_pos; [| lra]. specialize (Hle c). lra. }
    lra.
Qed.

Lemma nat_ind_step2 : forall P : nat -> Prop,
  P O -> P 1%nat -> (forall k, P k -> P (S (S k))) -> forall k, P k.
Proof.
  intros P H0 H1 HS.
  assert (H : forall k, P k /\ P (S k)).
  { induction k as [| k [IHa IHb]]; [split; assumption |].
    split; [exact IHb | apply HS, IHa]. }
  intro k. apply H.
Qed.

Lemma cos_int_0 : forall k, cos_int k 0 = 0.
Proof.
  induction k as [| | k IH] using nat_ind_step2.
  - reflexivity.
  - simpl. apply sin_0.
  - change (cos 0 ^ S k * sin 0 / INR (S (S k))
            + INR (S k) / INR (S (S k)) * cos_int k 0 = 0).
    rewrite IH, sin_0. unfold Rdiv. ring.
Qed.

Lemma cos_int_step : forall k t,
  cos_int (S (S k)) t
  = cos t ^ S k * sin t / INR (S (S k)) + INR (S k) / INR (S (S k)) * cos_int k t.
Proof. reflexivity. Qed.

Lemma cos_int_derivable :
  forall k t, derivable_pt_lim (cos_int k) t (cos t ^ k).
Proof.
  induction k as [| | k IH] using nat_ind_step2; intro t.
  - apply (derivable_pt_lim_ext _ id); [reflexivity |].
    simpl. apply derivable_pt_lim_id.
  - apply (derivable_pt_lim_ext _ sin); [reflexivity |].
    replace (cos t ^ 1) with (cos t) by ring. apply derivable_pt_lim_sin.
  - set (n2 := INR (S (S k))). set (n1 := INR (S k)).
    assert (Hn2 : n2 = n1 + 1) by (unfold n1, n2; rewrite (S_INR (S k)); ring).
    assert (Hn1 : 0 < n1) by (unfold n1; apply lt_0_INR; lia).
    apply (derivable_pt_lim_ext _
             (mult_real_fct (/ n2) (comp (fun y => y ^ S k) cos * sin)
              + mult_real_fct (n1 / n2) (cos_int k))%F).
    + intro y. rewrite cos_int_step.
      unfold plus_fct, mult_real_fct, mult_fct, comp. fold n1 n2. field. lra.
    + replace (cos t ^ S (S k))
        with (/ n2 * ((INR (S k) * cos t ^ Init.Nat.pred (S k) * - sin t) * sin t
                      + comp (fun y => y ^ S k) cos t * cos t)
              + n1 / n2 * cos t ^ k).
      * apply derivable_pt_lim_plus.
        -- apply derivable_pt_lim_scal, derivable_pt_lim_mult.
           ++ apply derivable_pt_lim_comp;
                [apply derivable_pt_lim_cos | apply derivable_pt_lim_pow].
           ++ apply derivable_pt_lim_sin.
        -- apply derivable_pt_lim_scal, IH.
      * unfold comp. fold n1. cbn [Init.Nat.pred].
        assert (Hss : sin t * sin t = 1 - cos t * cos t).
        { pose proof (sin2_cos2 t) as Hsc. unfold Rsqr in Hsc. lra. }
        replace (cos t ^ S (S k)) with (cos t ^ k * (cos t * cos t)) by (simpl; ring).
        replace (cos t ^ S k) with (cos t ^ k * cos t) by (simpl; ring).
        replace (n1 * cos t ^ k * - sin t * sin t)
          with (- n1 * cos t ^ k * (sin t * sin t)) by ring.
        rewrite Hss, Hn2. field. lra.
Qed.

Lemma cos_unit_interval : forall c, 0 <= c <= PI / 2 -> 0 <= cos c <= 1.
Proof.
  intros c Hc. split.
  - apply cos_ge_0; lra.
  - apply COS_bound.
Qed.

Lemma wallis_step : forall k,
  wallis (S (S k)) = INR (S k) / INR (S (S k)) * wallis k.
Proof.
  intro k. unfold wallis. rewrite cos_int_step, cos_PI2.
  rewrite pow_i by lia. unfold Rdiv. ring.
Qed.

Lemma cos_int_monotone : forall k a b,
  0 <= a -> a <= b -> b <= PI / 2 -> cos_int k a <= cos_int k b.
Proof.
  intros k a b Ha Hab Hb.
  pose proof (derivative_le_compare (fct_cte 0) (cos_int k)
                (fun _ => 0) (fun c => cos c ^ k) a b Hab) as H.
  unfold fct_cte in H.
  assert (0 - 0 <= cos_int k b - cos_int k a); [| lra].
  apply H.
  - intros. apply derivable_pt_lim_const.
  - intros. apply cos_int_derivable.
  - intros c Hc. apply pow_le. apply cos_unit_interval. lra.
Qed.

Lemma wallis_nonneg : forall k, 0 <= wallis k.
Proof.
  intro k. unfold wallis. rewrite <- (cos_int_0 k).
  pose proof PI_RGT_0. apply cos_int_monotone; lra.
Qed.

Lemma cos_int_le_wallis : forall k t, 0 <= t <= PI / 2 -> cos_int k t <= wallis k.
Proof. intros k t Ht. unfold wallis. apply cos_int_monotone; lra. Qed.

Lemma wallis_decreasing : forall k, wallis (S k) <= wallis k.
Proof.
  intro k. pose proof PI_RGT_0 as Hpi.
  assert (H : cos_int (S k) (PI / 2) - cos_int (S k) 0
              <= cos_int k (PI / 2) - cos_int k 0).
  { apply (derivative_le_compare _ _ (fun c => cos c ^ S k) (fun c => cos c ^ k)).
    - lra.
    - intros. apply cos_int_derivable.
    - intros. apply cos_int_derivable.
    - intros c Hc. destruct (cos_unit_interval c Hc) as [H0 H1].
      pose proof (pow_le (cos c) k H0). simpl. nra. }
  rewrite !cos_int_0 in H. unfold wallis. lra.
Qed.

Lemma wallis_product : forall k, wallis (S k) * wallis k = PI / 2 / INR (S k).
Proof.
  induction k as [| k IH].
  - unfold wallis. simpl. rewrite sin_PI2. field.
  - rewrite wallis_step.
    assert (H1 : 0 < INR (S k)) by (apply lt_0_INR; lia).
    assert (H2 : 0 < INR (S (S k))) by (apply lt_0_INR; lia).
    replace (INR (S k) / INR (S (S k)) * wallis k * wallis (S k))
      with (INR (S k) / INR (S (S k)) * (wallis (S k) * wallis k)) by ring.
    rewrite IH. field. lra.
Qed.

Lemma wallis_square : forall k, wallis (S k) * wallis (S k) <= PI / 2 / INR (S k).
Proof.
  intro k. rewrite <- wallis_product.
  apply Rmult_le_compat_l; [apply wallis_nonneg | apply wallis_decreasing].
Qed.

Lemma exp_INR_mult : forall n z, exp z ^ n = exp (INR n * z).
Proof.
  induction n as [| n IH]; intro z.
  - simpl. rewrite Rmult_0_l, exp_0. reflexivity.
  - rewrite S_INR. replace ((INR n + 1) * z) with (z + INR n * z) by ring.
    rewrite exp_plus, <- IH. reflexivity.
Qed.

Lemma cos_atan_sqr : forall y, cos (atan y) * cos (atan y) = / (1 + y * y).
Proof.
  intro y. rewrite cos_atan. unfold Rsqr.
  assert (H : 0 < 1 + y * y) by nra.
  assert (Hs : 0 < sqrt (1 + y * y)) by now apply sqrt_lt_R0.
  replace (1 / sqrt (1 + y * y) * (1 / sqrt (1 + y * y)))
    with (/ (sqrt (1 + y * y) * sqrt (1 + y * y))) by (field; lra).
  rewrite sqrt_sqrt by lra. reflexivity.
Qed.

(** [exp (- x^2 / 2) <= (1 + x^2 / (2 n)) ^ (- n)]. *)
Lemma gauss_le_rational : forall (m : nat) (x y : R),
  y * y * (2 * INR (S m)) = x * x ->
  gauss x <= (/ (1 + y * y)) ^ S m.
Proof.
  intros m x y Hy.
  assert (Hn : 0 < INR (S m)) by (apply lt_0_INR; lia).
  assert (H1 : 0 < 1 + y * y) by nra.
  unfold gauss. rewrite exp_Ropp, pow_inv.
  apply Rinv_le_contravar; [now apply pow_lt |].
  replace (x * x / 2) with (INR (S m) * (y * y)) by (rewrite <- Hy; field).
  rewrite <- exp_INR_mult.
  apply pow_incr. split; [lra | apply exp_ineq1_le].
Qed.

Section Upper.

Variable m : nat.

Lemma upper_scale_pos : 0 < upper_scale m.
Proof.
  unfold upper_scale. apply sqrt_lt_R0.
  assert (0 < INR (S m)) by (apply lt_0_INR; lia). lra.
Qed.

Lemma upper_scale_sqr : upper_scale m * upper_scale m = 2 * INR (S m).
Proof.
  unfold upper_scale. apply sqrt_sqrt.
  assert (0 < INR (S m)) by (apply lt_0_INR; lia). lra.
Qed.

Lemma upper_derivable : forall x,
  derivable_pt_lim (upper m) x
    ((/ (1 + (/ upper_scale m * x) * (/ upper_scale m * x))) ^ S m).
Proof.
  intro x. pose proof upper_scale_pos as Hs.
  set (s := upper_scale m) in *. set (y := / s * x).
  apply (derivable_pt_lim_ext _
           (mult_real_fct s (comp (cos_int (2 * m)) (comp atan (mult_real_fct (/ s) id))))).
  - intro z. reflexivity.
  - replace ((/ (1 + y * y)) ^ S m)
      with (s * (cos (atan y) ^ (2 * m) * (/ (1 + y ^ 2) * (/ s * 1)))).
    + apply derivable_pt_lim_scal.
      apply (derivable_pt_lim_comp (comp atan (mult_real_fct (/ s) id))).
      * apply (derivable_pt_lim_comp (mult_real_fct (/ s) id)).
        -- apply derivable_pt_lim_scal, derivable_pt_lim_id.
        -- apply derivable_pt_lim_atan.
      * apply cos_int_derivable.
    + rewrite pow_sqr, cos_atan_sqr.
      replace (y ^ 2) with (y * y) by ring.
      simpl. field. split; [nra | lra].
Qed.

Lemma upper_0 : upper m 0 = 0.
Proof. unfold upper. rewrite Rmult_0_r, atan_0, cos_int_0. ring. Qed.

Lemma gauss_int_le_upper : forall x, 0 <= x -> gauss_int x <= upper m x.
Proof.
  intros x Hx. pose proof upper_scale_pos as Hs. pose proof upper_scale_sqr as Hss.
  assert (H : gauss_int x - gauss_int 0 <= upper m x - upper m 0).
  { apply (derivative_le_compare _ _ gauss
             (fun c => (/ (1 + (/ upper_scale m * c) * (/ upper_scale m * c))) ^ S m));
      [exact Hx | | |].
    - intros. apply gauss_int_derivable.
    - intros. apply upper_derivable.
    - intros c _. apply gauss_le_rational.
      rewrite <- Hss. field. lra. }
  rewrite gauss_int_0, upper_0 in H. lra.
Qed.

Lemma upper_le_wallis :
  forall x, 0 <= x -> upper m x <= upper_scale m * wallis (2 * m).
Proof.
  intros x Hx. pose proof upper_scale_pos as Hs. unfold upper.
  set (s := upper_scale m) in *.
  apply Rmult_le_compat_l; [lra |].
  apply cos_int_le_wallis.
  assert (Hy : 0 <= / s * x).
  { apply Rmult_le_pos; [left; now apply Rinv_0_lt_compat | exact Hx]. }
  destruct (atan_bound (/ s * x)) as [_ Hub]. split; [| lra].
  destruct Hy as [Hy | <-]; [| rewrite atan_0; lra].
  rewrite <- atan_0. left. now apply atan_increasing.
Qed.

End Upper.

Lemma gauss_int_nonneg : forall x, 0 <= x -> 0 <= gauss_int x.
Proof.
  intros x Hx.
  pose proof (derivative_le_compare (fct_cte 0) gauss_int (fun _ => 0) gauss 0 x Hx) as H.
  unfold fct_cte in H. rewrite gauss_int_0 in H.
  assert (0 - 0 <= gauss_int x - 0); [| lra].
  apply H.
  - intros. apply derivable_pt_lim_const.
  - intros. apply gauss_int_derivable.
  - intros. left. apply gauss_pos.
Qed.

Lemma gauss_int_square_bound : forall m x, 0 <= x ->
  gauss_int x * gauss_int x <= PI / 2 * (1 + / INR (S m)).
Proof.
  intros m x Hx.
  set (s := upper_scale (S m)).
  set (w := wallis (2 * S m)).
  assert (Hn : 0 < INR (S m)) by (apply lt_0_INR; lia).
  assert (Hss : s * s = 2 * (INR (S m) + 1)).
  { unfold s. rewrite upper_scale_sqr, (S_INR (S m)). ring. }
  assert (Hs : 0 < s) by apply upper_scale_pos.
  assert (Hw0 : 0 <= w) by apply wallis_nonneg.
  assert (Hww : w * w <= PI / 2 / (2 * INR (S m))).
  { unfold w. replace (2 * S m)%nat with (S (S (2 * m))) by lia.
    replace (2 * INR (S m)) with (INR (S (S (2 * m)))).
    - apply wallis_square.
    - replace (S (S (2 * m))) with (2 * S m)%nat by lia.
      rewrite mult_INR. replace (INR 2) with 2 by (simpl; lra). reflexivity. }
  assert (HG : gauss_int x <= s * w).
  { eapply Rle_trans; [apply (gauss_int_le_upper (S m) x Hx) |].
    apply (upper_le_wallis (S m) x Hx). }
  pose proof (gauss_int_nonneg x Hx) as HG0.
  assert (Hsq : gauss_int x * gauss_int x <= (s * w) * (s * w)).
  { apply Rmult_le_compat; assumption. }
  eapply Rle_trans; [exact Hsq |].
  replace (s * w * (s * w)) with (s * s * (w * w)) by ring.
  rewrite Hss.
  eapply Rle_trans.
  - apply Rmult_le_compat_l; [lra | exact Hww].
  - right. field. lra.
Qed.

(** The Gaussian integral: [gauss_int] never exceeds [sqrt (2 PI) / 2]. *)
Lemma gauss_int_bound : forall x, 0 <= x -> gauss_int x <= sqrt (2 * PI) / 2.
Proof.
  intros x Hx. pose proof PI_RGT_0 as Hpi. pose proof sqrt_2PI_pos as Hb.
  assert (Hbb : sqrt (2 * PI) / 2 * (sqrt (2 * PI) / 2) = PI / 2).
  { replace (sqrt (2 * PI) / 2 * (sqrt (2 * PI) / 2))
      with (sqrt (2 * PI) * sqrt (2 * PI) / 4) by field.
    rewrite sqrt_sqrt; lra. }
  assert (Hb2 : 0 < sqrt (2 * PI) / 2) by lra.
  destruct (Rle_or_lt (gauss_int x) (sqrt (2 * PI) / 2)) as [H | H]; [exact H | exfalso].
  set (G := gauss_int x) in *. set (B := sqrt (2 * PI) / 2) in *.
  assert (Hlt : B * B < G * G) by (apply Rmult_le_0_lt_compat; lra).
  set (d := G * G - PI / 2).
  assert (Hd : 0 < d) by (unfold d; lra).
  destruct (INR_unbounded (PI / 2 / d)) as [n Hn].
  pose proof (gauss_int_square_bound n x Hx) as Hm. fold G in Hm.
  assert (Hn1 : PI / 2 / d < INR (S n)) by (rewrite S_INR; lra).
  assert (Hpos : 0 < PI / 2 / d) by (apply Rdiv_lt_0_compat; lra).
  assert (Hq : PI / 2 * / INR (S n) < d).
  { assert (Hi : / INR (S n) < / (PI / 2 / d)) by (apply Rinv_lt_contravar; nra).
    replace (/ (PI / 2 / d)) with (d / (PI / 2)) in Hi by (field; lra).
    assert (PI / 2 * / INR (S n) < PI / 2 * (d / (PI / 2)))
      by (apply Rmult_lt_compat_l; lra).
    replace (PI / 2 * (d / (PI / 2))) with d in * by (field; lra).
    assumption. }
  unfold d in Hq. lra.
Qed.

(** [Phi] is a probability. *)
Lemma Phi_bounds : forall x, 0 <= Phi x <= 1.
Proof.
  assert (Hpos : forall x, 0 <= x -> 1 / 2 <= Phi x <= 1).
  { intros x Hx. pose proof sqrt_2PI_pos as Hb.
    pose proof (gauss_int_nonneg x Hx) as H0.
    pose proof (gauss_int_bound x Hx) as H1.
    unfold Phi. split.
    - assert (0 <= gauss_int x / sqrt (2 * PI)); [| lra].
      apply Rmult_le_pos; [exact H0 | left; now apply Rinv_0_lt_compat].
    - assert (gauss_int x / sqrt (2 * PI) <= 1 / 2); [| lra].
      apply Rmult_le_reg_r with (sqrt (2 * PI)); [exact Hb |].
      replace (gauss_int x / sqrt (2 * PI) * sqrt (2 * PI)) with (gauss_int x)
        by (field; lra).
      lra. }
  intro x. destruct (Rle_or_lt 0 x) as [Hx | Hx].
  - specialize (Hpos x Hx). lra.
  - assert (Hx' : 0 <= - x) by lra. specialize (Hpos (- x) Hx').
    rewrite Phi_opp in Hpos. lra.
Qed.

(** ** A market price out of the call's reach *)

(** A call is never worth more than the underlying. *)
Lemma call_formula_le_spot :
  forall S K T r sigma, 0 < S -> 0 < K -> call_formula S K T r sigma <= S.
Proof.
  intros S K T r sigma HS HK. unfold call_formula.
  destruct (Phi_bounds (bs_d1 S K T r sigma)) as [_ H1].
  destruct (Phi_bounds (bs_d2 S K T r sigma)) as [H2 _].
  pose proof (exp_pos (- (r * T))) as He.
  assert (0 <= K * exp (- (r * T)) * Phi (bs_d2 S K T r sigma)).
  { apply Rmult_le_pos; [| exact H2]. apply Rmult_le_pos; lra. }
  assert (S * Phi (bs_d1 S K T r sigma) <= S * 1)
    by (apply Rmult_le_compat_l; lra).
  lra.
Qed.

Lemma market_out_of_reach :
  forall e market, e + tolerance <= market -> meets_tolerance (Fin e) market = false.
Proof.
  intros e market H. unfold meets_tolerance, fsub, fneg, fadd, fabs, flt.
  destruct (Rlt_dec (Rabs (e + - market)) tolerance) as [Hlt | _]; [| reflexivity].
  exfalso. revert Hlt H. unfold tolerance, Rabs.
  destruct (Rcase_abs (e + - market)); lra.
Qed.


(** ** A Python float for sigma *)

Lemma py_pow_in_range : forall x,
  x ^ 2 < float_overflow -> py_pow x 2 = Ret (x ^ 2).
Proof.
  intros x H. unfold py_pow.
  rewrite <- RPow_abs, pow2_abs.
  destruct (Rlt_dec (x ^ 2) float_overflow); [reflexivity | contradiction].
Qed.

Lemma py_pow_overflow : forall x,
  float_overflow <= x ^ 2 -> py_pow x 2 = Raise OverflowError.
Proof.
  intros x H. unfold py_pow.
  rewrite <- RPow_abs, pow2_abs.
  destruct (Rlt_dec (x ^ 2) float_overflow); [lra | reflexivity].
Qed.

(** While the square is in range the type of sigma makes no difference. *)
Lemma BS_CALL_pyfloat_in_range : forall S K T r sigma,
  sigma ^ 2 < float_overflow ->
  BS_CALL_pyfloat S K T r sigma = BS_CALL S K T r sigma.
Proof.
  intros * H. unfold BS_CALL_pyfloat, BS_CALL.
  destruct (py_div S K) as [q | e]; [| reflexivity].
  cbn [bind]. rewrite (py_pow_in_range sigma H). reflexivity.
Qed.

Lemma BS_PUT_pyfloat_in_range : forall S K T r sigma,
  sigma ^ 2 < float_overflow ->
  BS_PUT_pyfloat S K T r sigma = BS_PUT S K T r sigma.
Proof.
  intros * H. unfold BS_PUT_pyfloat, BS_PUT.
  destruct (py_div S K) as [q | e]; [| reflexivity].
  cbn [bind]. rewrite (py_pow_in_range sigma H). reflexivity.
Qed.

Lemma BS_CALL_pyfloat_zero_strike : forall S T r sigma,
  BS_CALL_pyfloat S 0 T r sigma = Raise ZeroDivisionError.
Proof.
  intros. unfold BS_CALL_pyfloat, py_div.
  destruct (Req_dec_T 0 0); [reflexivity | contradiction].
Qed.

Lemma BS_PUT_pyfloat_zero_strike : forall S T r sigma,
  BS_PUT_pyfloat S 0 T r sigma = Raise ZeroDivisionError.
Proof.
  intros. unfold BS_PUT_pyfloat, py_div.
  destruct (Req_dec_T 0 0); [reflexivity | contradiction].
Qed.

Lemma BS_CALL_pyfloat_overflow : forall S K T r sigma,
  K <> 0 -> float_overflow <= sigma ^ 2 ->
  BS_CALL_pyfloat S K T r sigma = Raise OverflowError.
Proof.
  intros * HK H. unfold BS_CALL_pyfloat, py_div.
  destruct (Req_dec_T K 0); [contradiction |].
  cbn [bind]. rewrite (py_pow_overflow sigma H). reflexivity.
Qed.

Lemma BS_PUT_pyfloat_overflow : forall S K T r sigma,
  K <> 0 -> float_overflow <= sigma ^ 2 ->
  BS_PUT_pyfloat S K T r sigma = Raise OverflowError.
Proof.
  intros * HK H. unfold BS_PUT_pyfloat, py_div.
  destruct (Req_dec_T K 0); [contradiction |].
  cbn [bind]. rewrite (py_pow_overflow sigma H). reflexivity.
Qed.

(** Two pricers that agree on the sigmas a leg visits give the same leg. *)
Lemma leg_agree : forall price price' market n sigma,
  (forall s, In s (visited (leg price market n sigma)) -> price' s = price s) ->
  leg price' market n sigma = leg price market n sigma.
Proof.
  intros price price' market n. induction n as [| n IH]; intros sigma Hag.
  - reflexivity.
  - destruct (leg_cases price market n sigma)
      as [(e & He & E) | [(est & He & Hm & E) | (est & He & Hm & E)]];
      rewrite E in Hag |- *; cbn [visited entered] in Hag;
      pose proof (Hag sigma (or_introl eq_refl)) as Hs; rewrite He in Hs.
    + now apply leg_raise.
    + now apply (leg_accept _ _ _ _ est).
    + rewrite (leg_continue _ _ _ _ est Hs Hm). f_equal.
      apply IH. intros s Hin. apply Hag. now right.
Qed.

Lemma next_sigma_abs : forall est market sigma,
  Rabs (next_sigma est market sigma) <= Rabs sigma * 1.05.
Proof.
  intros. rewrite next_sigma_scaled.
  destruct (fgt est (Fin market)); rewrite Rabs_mult, (Rabs_pos_eq 0.95) || rewrite Rabs_mult, (Rabs_pos_eq 1.05);
    try lra; pose proof (Rabs_pos sigma); nra.
Qed.

(** A leg of [n] iterations multiplies the magnitude of its sigma by at
    most [1.05 ^ (n - 1)]. *)
Lemma leg_visited_growth : forall price market n sigma s,
  In s (visited (leg price market (S n) sigma)) -> Rabs s <= Rabs sigma * 1.05 ^ n.
Proof.
  intros price market n. induction n as [| n IH]; intros sigma s.
  - destruct (leg_cases price market 0 sigma)
      as [(e & _ & ->) | [(est & _ & _ & ->) | (est & _ & _ & ->)]];
      cbn; intros [<- | []]; lra.
  - assert (H1 : 1 <= 1.05 ^ S n) by (apply pow_R1_Rle; lra).
    pose proof (Rabs_pos sigma) as Hp.
    assert (Hhere : Rabs sigma <= Rabs sigma * 1.05 ^ S n) by nra.
    destruct (leg_cases price market (S n) sigma)
      as [(e & _ & ->) | [(est & _ & _ & ->) | (est & _ & _ & ->)]];
      cbn [visited entered]; intros [<- | Hin]; try exact Hhere; try destruct Hin.
    apply IH in Hin.
    pose proof (next_sigma_abs est market sigma) as Hn.
    assert (0 < 1.05 ^ n) by (apply pow_lt; lra).
    change (1.05 ^ S n) with (1.05 * 1.05 ^ n). nra.
Qed.

(** From a seed with [(initial_sigma * 1.05 ^ 99) ^ 2] in range, every
    sigma of a leg has its square in range. *)
Lemma leg_visited_in_range : forall price market initial_sigma s,
  (initial_sigma * 1.05 ^ 99) ^ 2 < float_overflow ->
  In s (visited (leg price market max_iterations initial_sigma)) ->
  s ^ 2 < float_overflow.
Proof.
  intros price market sigma0 s Hr Hin.
  apply (leg_visited_growth price market 99) in Hin.
  eapply Rle_lt_trans; [| exact Hr].
  rewrite <- (pow2_abs (sigma0 * 1.05 ^ 99)), Rabs_mult.
  rewrite (Rabs_pos_eq (1.05 ^ 99)) by (apply pow_le; lra).
  now apply pow_maj_Rabs.
Qed.

Lemma call_leg_pyfloat_in_range : forall m_call S K T r initial_sigma,
  (initial_sigma * 1.05 ^ 99) ^ 2 < float_overflow ->
  call_leg_pyfloat m_call S K T r initial_sigma = call_leg m_call S K T r initial_sigma.
Proof.
  intros * Hr. apply leg_agree. intros s Hin.
  apply BS_CALL_pyfloat_in_range. exact (leg_visited_in_range _ _ _ _ Hr Hin).
Qed.

Lemma put_leg_pyfloat_in_range : forall m_put S K T r initial_sigma,
  (initial_sigma * 1.05 ^ 99) ^ 2 < float_overflow ->
  put_leg_pyfloat m_put S K T r initial_sigma = put_leg m_put S K T r initial_sigma.
Proof.
  intros * Hr. apply leg_agree. intros s Hin.
  apply BS_PUT_pyfloat_in_range. exact (leg_visited_in_range _ _ _ _ Hr Hin).
Qed.

Lemma implied_volatility_pyfloat_in_range : forall m_call m_put S K T r initial_sigma,
  (initial_sigma * 1.05 ^ 99) ^ 2 < float_overflow ->
  implied_volatility_pyfloat m_call m_put S K T r initial_sigma
  = implied_volatility m_call m_put S K T r initial_sigma.
Proof.
  intros * Hr.
  pose proof (call_leg_pyfloat_in_range m_call S K T r initial_sigma Hr) as Ec.
  pose proof (put_leg_pyfloat_in_range m_put S K T r initial_sigma Hr) as Ep.
  unfold implied_volatility_pyfloat, implied_volatility.
  rewrite Ec, Ep. reflexivity.
Qed.

(** Numbers: 99 steps of 5% multiply by about 125, and the float range
    ends near [1.8e308]. *)
Lemma growth_99_bounds : 100 <= 1.05 ^ 99 <= 128.
Proof.
  replace 1.05 with (IZR 21 / IZR 20) by lra.
  unfold Rdiv. rewrite Rpow_mult_distr, pow_inv, !pow_IZR.
  assert (H : 0 < IZR (20 ^ Z.of_nat 99)) by (apply IZR_lt; reflexivity).
  split.
  - apply Rmult_le_reg_r with (IZR (20 ^ Z.of_nat 99)); [exact H |].
    rewrite Rmult_assoc, Rinv_l, Rmult_1_r by lra.
    rewrite <- mult_IZR. apply IZR_le. vm_compute. discriminate.
  - apply Rmult_le_reg_r with (IZR (20 ^ Z.of_nat 99)); [exact H |].
    rewrite Rmult_assoc, Rinv_l, Rmult_1_r by lra.
    rewrite <- mult_IZR. apply IZR_le. vm_compute. discriminate.
Qed.

Lemma float_overflow_bounds : 10 ^ 305 < float_overflow < 10 ^ 309.
Proof.
  unfold float_overflow. change 10 with (IZR 10). rewrite !pow_IZR.
  split; apply IZR_lt; vm_compute; reflexivity.
Qed.

(** Every seed up to [1e150] in magnitude is in range. *)
Lemma seed_in_range : forall initial_sigma,
  Rabs initial_sigma <= 10 ^ 150 ->
  (initial_sigma * 1.05 ^ 99) ^ 2 < float_overflow.
Proof.
  intros sigma0 H.
  destruct growth_99_bounds as [_ Hg]. destruct float_overflow_bounds as [Hf _].
  eapply Rle_lt_trans; [| exact Hf].
  rewrite <- (pow2_abs (sigma0 * 1.05 ^ 99)), Rabs_mult.
  rewrite (Rabs_pos_eq (1.05 ^ 99)) by (apply pow_le; lra).
  apply Rle_trans with ((10 ^ 150 * 128) ^ 2).
  - apply pow_incr. pose proof (Rabs_pos sigma0).
    assert (0 < 1.05 ^ 99) by (apply pow_lt; lra).
    split; [nra |]. apply Rmult_le_compat; lra.
  - change 10 with (IZR 10). change 128 with (IZR 128).
    rewrite !pow_IZR, <- mult_IZR, pow_IZR. apply IZR_le. vm_compute. discriminate.
Qed.

Lemma unit_square_in_range : forall x, -1 <= x <= 1 -> x ^ 2 < float_overflow.
Proof.
  intros x H. destruct float_overflow_bounds as [Hf _].
  assert (1 <= 10 ^ 305) by (apply pow_R1_Rle; lra).
  nra.
Qed.

Lemma unit_seed_in_range : forall x,
  -1 <= x <= 1 -> (x * 1.05 ^ 99) ^ 2 < float_overflow.
Proof.
  intros x H. apply seed_in_range.
  assert (1 <= 10 ^ 150) by (apply pow_R1_Rle; lra).
  unfold Rabs. destruct (Rcase_abs x); lra.
Qed.

(** [1e200] squared, and [1e153] after 99 steps of 5% squared, are out
    of range. *)
Lemma huge_square_overflows : float_overflow <= (10 ^ 200) ^ 2.
Proof.
  destruct float_overflow_bounds as [_ Hf].
  rewrite <- pow_mult.
  assert (10 ^ 309 <= 10 ^ (200 * 2)) by (apply Rle_pow; [lra | lia]).
  lra.
Qed.




(** * The claims *)

(** ** Pricer *)

(** C1, refuted as stated: with a negative maturity and every other
    parameter valid, [BS_CALL] and [BS_PUT] raise nothing and return NaN. *)
Lemma pricer_negative_maturity_is_silent :
  -1 <= 0
  /\ BS_CALL 100 100 (-1) 0.05 0.2 = Ret NaN
  /\ BS_PUT 100 100 (-1) 0.05 0.2 = Ret NaN
  /\ (forall e, BS_CALL 100 100 (-1) 0.05 0.2 <> Raise e)
  /\ (forall e, BS_PUT 100 100 (-1) 0.05 0.2 <> Raise e).
Proof.
  assert (Hc : BS_CALL 100 100 (-1) 0.05 0.2 = Ret NaN)
    by (apply BS_CALL_negative_T; lra).
  assert (Hp : BS_PUT 100 100 (-1) 0.05 0.2 = Ret NaN)
    by (apply BS_PUT_negative_T; lra).
  repeat split; try assumption; try lra.
  - intros e. rewrite Hc. discriminate.
  - intros e. rewrite Hp. discriminate.
Qed.

(** C1, amended: [BS_CALL] and [BS_PUT] validate nothing.  Called with
    Python floats, they raise ZeroDivisionError, from [S/K], when the
    strike is zero; with any other strike they raise OverflowError, from
    [sigma**2], when the square of sigma is out of the float range; and
    with any other strike and the square in range, whatever the sign of
    S, K, T and sigma, they return a float and raise nothing, and that
    float is NaN when T is negative.  In that last case the type of
    sigma makes no difference. *)
Theorem pricer_validates_nothing :
  forall S K T r sigma,
    (K = 0 ->
       BS_CALL_pyfloat S K T r sigma = Raise ZeroDivisionError
       /\ BS_PUT_pyfloat S K T r sigma = Raise ZeroDivisionError)
    /\ (K <> 0 -> float_overflow <= sigma ^ 2 ->
          BS_CALL_pyfloat S K T r sigma = Raise OverflowError
          /\ BS_PUT_pyfloat S K T r sigma = Raise OverflowError)
    /\ (K <> 0 -> sigma ^ 2 < float_overflow ->
          (exists c, BS_CALL_pyfloat S K T r sigma = Ret c)
          /\ (exists p, BS_PUT_pyfloat S K T r sigma = Ret p))
    /\ (K <> 0 -> sigma ^ 2 < float_overflow -> T < 0 ->
          BS_CALL_pyfloat S K T r sigma = Ret NaN
          /\ BS_PUT_pyfloat S K T r sigma = Ret NaN)
    /\ (sigma ^ 2 < float_overflow ->
          BS_CALL_pyfloat S K T r sigma = BS_CALL S K T r sigma
          /\ BS_PUT_pyfloat S K T r sigma = BS_PUT S K T r sigma).
Proof.
  intros S K T r sigma. split; [| split; [| split; [| split]]].
  - intros ->. split; [apply BS_CALL_pyfloat_zero_strike | apply BS_PUT_pyfloat_zero_strike].
  - intros HK Ho. split; [now apply BS_CALL_pyfloat_overflow | now apply BS_PUT_pyfloat_overflow].
  - intros HK Hr.
    rewrite BS_CALL_pyfloat_in_range, BS_PUT_pyfloat_in_range by exact Hr.
    split; [now apply BS_CALL_returns | now apply BS_PUT_returns].
  - intros HK Hr HT.
    rewrite BS_CALL_pyfloat_in_range, BS_PUT_pyfloat_in_range by exact Hr.
    split; [now apply BS_CALL_negative_T | now apply BS_PUT_negative_T].
  - intros Hr. split; [now apply BS_CALL_pyfloat_in_range | now apply BS_PUT_pyfloat_in_range].
Qed.

Lemma pricer_validates_nothing_witness :
  BS_CALL_pyfloat 100 0 1 0.05 0.2 = Raise ZeroDivisionError
  /\ BS_PUT_pyfloat 100 100 1 0.05 (10 ^ 200) = Raise OverflowError
  /\ (exists c, BS_CALL_pyfloat 100 100 1 0.05 (-0.2) = Ret c)
  /\ BS_PUT_pyfloat 100 100 (-1) 0.05 0.2 = Ret NaN.
Proof.
  split; [| split; [| split]].
  - apply (pricer_validates_nothing 100 0 1 0.05 0.2). reflexivity.
  - apply (pricer_validates_nothing 100 100 1 0.05 (10 ^ 200));
      [lra | apply huge_square_overflows].
  - apply (pricer_validates_nothing 100 100 1 0.05 (-0.2));
      [lra | apply unit_square_in_range; lra].
  - apply (pricer_validates_nothing 100 100 (-1) 0.05 0.2);
      [lra | apply unit_square_in_range; lra | lra].
Defined.









(** ** Calibrator *)

Lemma bind_pair_inv :
  forall (A B : Type) (a : outcome A) (b : outcome B) (x : A) (y : B),
    (u <- a ;; v <- b ;; Ret (u, v)) = Ret (x, y) -> a = Ret x /\ b = Ret y.
Proof.
  intros A B [x' | e] [y' | e'] x y H; try discriminate.
  simpl in H. injection H as -> ->. split; reflexivity.
Qed.

Lemma implied_volatility_legs : forall m_call m_put S K T r initial_sigma cv pv,
  implied_volatility m_call m_put S K T r initial_sigma = Ret (cv, pv) ->
  vol (call_leg m_call S K T r initial_sigma) = Ret cv
  /\ vol (put_leg m_put S K T r initial_sigma) = Ret pv.
Proof.
  intros * H. unfold implied_volatility in H.
  exact (bind_pair_inv _ _ _ _ _ _ H).
Qed.

(** C2: each leg of [implied_volatility] is the search of the
    specification run for 100 iterations from [initial_sigma]: estimate
    the leg's price at the current sigma, return sigma rounded to 4
    digits when the estimate is within 0.01 of the market price, and
    otherwise go on with sigma * 0.95 when the estimate is above the
    market price and with sigma * 1.05 when it is not. *)
Theorem implied_volatility_search_rule :
  forall m_call m_put S K T r initial_sigma,
    implied_volatility m_call m_put S K T r initial_sigma =
      (call_vol <- spec_search (BS_CALL S K T r) m_call 100 initial_sigma ;;
       put_vol <- spec_search (BS_PUT S K T r) m_put 100 initial_sigma ;;
       Ret (call_vol, put_vol)).
Proof.
  intros. unfold implied_volatility, call_leg, put_leg, max_iterations.
  rewrite !leg_refines_spec_search. reflexivity.
Qed.

(** C3, refuted as stated: a zero strike makes the first iteration raise. *)
Lemma implied_volatility_zero_strike_raises :
  implied_volatility 10 5 100 0 1 0.05 0.2 = Raise ZeroDivisionError.
Proof. apply implied_volatility_zero_strike. Qed.

(** C3, amended: for every input each leg runs its loop body at most
    100 times.  With a nonzero strike and a seed from which sigma cannot
    grow out of the range of [sigma**2] ([(initial_sigma * 1.05^99)^2]
    below the float overflow; every seed up to 1e150 in magnitude),
    [implied_volatility] returns a pair and raises nothing, also when
    sigma is a Python float, and a leg none of whose iterates meets the
    tolerance yields [None]. *)
Theorem implied_volatility_budget :
  forall m_call m_put S K T r initial_sigma,
    (length (visited (call_leg_pyfloat m_call S K T r initial_sigma)) <= 100)%nat
    /\ (length (visited (put_leg_pyfloat m_put S K T r initial_sigma)) <= 100)%nat
    /\ (K <> 0 -> (initial_sigma * 1.05 ^ 99) ^ 2 < float_overflow ->
        exists call_vol put_vol,
          implied_volatility_pyfloat m_call m_put S K T r initial_sigma
          = Ret (call_vol, put_vol)
          /\ ((forall s est,
                 In s (visited (call_leg_pyfloat m_call S K T r initial_sigma)) ->
                 BS_CALL_pyfloat S K T r s = Ret est ->
                 meets_tolerance est m_call = false) ->
              call_vol = None)
          /\ ((forall s est,
                 In s (visited (put_leg_pyfloat m_put S K T r initial_sigma)) ->
                 BS_PUT_pyfloat S K T r s = Ret est ->
                 meets_tolerance est m_put = false) ->
              put_vol = None)).
Proof.
  intros *.
  split; [apply leg_iterations |]. split; [apply leg_iterations |].
  intros HK Hr.
  pose proof (call_leg_pyfloat_in_range m_call S K T r initial_sigma Hr) as Ec.
  pose proof (put_leg_pyfloat_in_range m_put S K T r initial_sigma Hr) as Ep.
  rewrite (implied_volatility_pyfloat_in_range m_call m_put S K T r initial_sigma Hr), Ec, Ep.
  destruct (implied_volatility_returns m_call m_put S K T r initial_sigma HK)
    as (cv & pv & Hc & Hp & E).
  exists cv, pv. split; [exact E |]. split; intro Hno.
  - destruct (leg_exhausted (BS_CALL S K T r) m_call max_iterations initial_sigma)
      as [Hv _]; [intro s; now apply BS_CALL_returns | |].
    + intros s est Hin Hest. apply (Hno s est Hin).
      rewrite BS_CALL_pyfloat_in_range; [exact Hest |].
      exact (leg_visited_in_range _ _ _ _ Hr Hin).
    + unfold call_leg in Hc. congruence.
  - destruct (leg_exhausted (BS_PUT S K T r) m_put max_iterations initial_sigma)
      as [Hv _]; [intro s; now apply BS_PUT_returns | |].
    + intros s est Hin Hest. apply (Hno s est Hin).
      rewrite BS_PUT_pyfloat_in_range; [exact Hest |].
      exact (leg_visited_in_range _ _ _ _ Hr Hin).
    + unfold put_leg in Hp. congruence.
Qed.

Lemma implied_volatility_budget_witness :
  le (length (visited (call_leg_pyfloat 10 100 100 1 0.05 0.2))) 100%nat
  /\ exists call_vol put_vol,
       implied_volatility_pyfloat 10 5 100 100 1 0.05 0.2 = Ret (call_vol, put_vol).
Proof.
  destruct (implied_volatility_budget 10 5 100 100 1 0.05 0.2) as (Hc & _ & H).
  split; [exact Hc |].
  destruct H as (cv & pv & E & _); [lra | apply unit_seed_in_range; lra |].
  exists cv, pv. exact E.
Defined.


(** C10: from a positive [initial_sigma], every value either loop gives
    to its sigma is positive, and a volatility that [implied_volatility]
    returns is not negative. *)
Theorem sigma_stays_positive :
  forall m_call m_put S K T r initial_sigma,
    0 < initial_sigma ->
    Forall (fun s => 0 < s) (visited (call_leg m_call S K T r initial_sigma))
    /\ 0 < final_sigma (call_leg m_call S K T r initial_sigma)
    /\ Forall (fun s => 0 < s) (visited (put_leg m_put S K T r initial_sigma))
    /\ 0 < final_sigma (put_leg m_put S K T r initial_sigma)
    /\ forall call_vol put_vol,
         implied_volatility m_call m_put S K T r initial_sigma = Ret (call_vol, put_vol) ->
         (forall v, call_vol = Some v -> 0 <= v)
         /\ (forall v, put_vol = Some v -> 0 <= v).
Proof.
  intros * Hs.
  destruct (leg_positive (BS_CALL S K T r) m_call max_iterations initial_sigma Hs)
    as [Hcv Hcf].
  destruct (leg_positive (BS_PUT S K T r) m_put max_iterations initial_sigma Hs)
    as [Hpv Hpf].
  repeat split; try assumption.
  - intros v ->. apply implied_volatility_legs in H as [Hc _].
    apply leg_some in Hc as (s & Hin & ->).
    apply py_round_nonneg. left.
    exact (proj1 (Forall_forall _ _) Hcv s Hin).
  - intros v ->. apply implied_volatility_legs in H as [_ Hp].
    apply leg_some in Hp as (s & Hin & ->).
    apply py_round_nonneg. left.
    exact (proj1 (Forall_forall _ _) Hpv s Hin).
Qed.

Lemma sigma_stays_positive_witness :
  Forall (fun s => 0 < s) (visited (call_leg 10 100 100 1 0.05 0.2))
  /\ 0 < final_sigma (put_leg 5 100 100 1 0.05 0.2).
Proof.
  destruct (sigma_stays_positive 10 5 100 100 1 0.05 0.2) as (Hc & _ & _ & Hp & _); [lra |].
  split; assumption.
Defined.




(** * Further properties of the code *)

(** ** The Gaussian integral from below *)

Lemma gauss_derivable : forall t, derivable_pt_lim gauss t (- t * gauss t).
Proof.
  intro t.
  apply (derivable_pt_lim_ext _ (comp exp (mult_real_fct (- / 2) (id * id)))%F).
  - intro y. unfold gauss, comp, mult_real_fct, mult_fct, id. f_equal. field.
  - replace (- t * gauss t)
      with (exp (mult_real_fct (- / 2) (id * id)%F t) * (- / 2 * (1 * id t + id t * 1))).
    + apply derivable_pt_lim_comp.
      * apply derivable_pt_lim_scal, derivable_pt_lim_mult; apply derivable_pt_lim_id.
      * apply derivable_pt_lim_exp.
    + unfold gauss, mult_real_fct, mult_fct, id.
      replace (- / 2 * (t * t)) with (- (t * t / 2)) by field. field.
Qed.

(** [(1 - z) ^ n <= exp (- n z)] for [0 <= z <= 1]. *)
Lemma rational_le_gauss : forall (n : nat) (t c : R),
  0 <= c <= 1 -> t * t = 2 * INR n * (1 - c * c) ->
  (c * c) ^ n <= gauss t.
Proof.
  intros n t c Hc Ht.
  unfold gauss.
  replace (- (t * t / 2)) with (INR n * - (1 - c * c)) by (rewrite Ht; field).
  rewrite <- exp_INR_mult.
  apply pow_incr. split; [nra |].
  pose proof (exp_ineq1_le (- (1 - c * c))). lra.
Qed.

Lemma gauss_int_ge_wallis : forall n,
  sqrt (2 * INR n) * wallis (2 * n + 1) <= gauss_int (sqrt (2 * INR n)).
Proof.
  intro n. set (s := sqrt (2 * INR n)).
  assert (Hn : 0 <= 2 * INR n) by (pose proof (pos_INR n); lra).
  assert (Hs : 0 <= s) by apply sqrt_pos.
  assert (Hss : s * s = 2 * INR n) by (apply sqrt_sqrt; exact Hn).
  pose proof PI_RGT_0 as Hpi.
  assert (H : mult_real_fct s (cos_int (2 * n + 1)) (PI / 2)
              - mult_real_fct s (cos_int (2 * n + 1)) 0
              <= comp gauss_int (mult_real_fct s sin) (PI / 2)
                 - comp gauss_int (mult_real_fct s sin) 0).
  { apply (derivative_le_compare _ _
             (fun c => s * cos c ^ (2 * n + 1))
             (fun c => gauss (mult_real_fct s sin c) * (s * cos c))); [lra | | |].
    - intros c _. apply derivable_pt_lim_scal, cos_int_derivable.
    - intros c _. apply derivable_pt_lim_comp.
      + apply derivable_pt_lim_scal, derivable_pt_lim_sin.
      + apply gauss_int_derivable.
    - intros c Hc. destruct (cos_unit_interval c Hc) as [Hc0 Hc1].
      replace (s * cos c ^ (2 * n + 1)) with ((cos c * cos c) ^ n * (s * cos c)).
      + apply Rmult_le_compat_r; [now apply Rmult_le_pos |].
        apply rational_le_gauss; [split; assumption |].
        unfold mult_real_fct.
        pose proof (sin2_cos2 c) as Hsc. unfold Rsqr in Hsc.
        replace (s * sin c * (s * sin c)) with (s * s * (sin c * sin c)) by ring.
        rewrite Hss. replace (sin c * sin c) with (1 - cos c * cos c) by lra. ring.
      + rewrite <- pow_sqr, pow_add. simpl. ring. }
  unfold comp, mult_real_fct in H.
  rewrite sin_PI2, sin_0, cos_int_0, !Rmult_0_r, gauss_int_0, Rmult_1_r in H.
  unfold wallis. fold s. lra.
Qed.

Lemma gauss_int_square_ge : forall n,
  PI / 2 - PI / 2 / INR (S n)
  <= gauss_int (sqrt (2 * INR n)) * gauss_int (sqrt (2 * INR n)).
Proof.
  intro n. set (s := sqrt (2 * INR n)). set (w := wallis (2 * n + 1)).
  assert (Hn : 0 <= INR n) by apply pos_INR.
  assert (Hs : 0 <= s) by apply sqrt_pos.
  assert (Hss : s * s = 2 * INR n) by (apply sqrt_sqrt; lra).
  assert (Hw : 0 <= w) by apply wallis_nonneg.
  assert (Hww : PI / 2 / INR (S (2 * n + 1)) <= w * w).
  { rewrite <- wallis_product. fold w.
    apply Rmult_le_compat_r; [exact Hw | apply wallis_decreasing]. }
  assert (HI : INR (S (2 * n + 1)) = 2 * INR (S n)).
  { replace (S (2 * n + 1)) with (2 * S n)%nat by lia.
    rewrite mult_INR. replace (INR 2) with 2 by (simpl; lra). reflexivity. }
  rewrite HI in Hww.
  pose proof (gauss_int_ge_wallis n) as HG. fold s w in HG.
  assert (Hsw : 0 <= s * w) by now apply Rmult_le_pos.
  assert (Hsq : (s * w) * (s * w) <= gauss_int s * gauss_int s)
    by (apply Rmult_le_compat; assumption).
  eapply Rle_trans; [| exact Hsq].
  replace (s * w * (s * w)) with (s * s * (w * w)) by ring. rewrite Hss.
  assert (Hn1 : 0 < INR (S n)) by (apply lt_0_INR; lia).
  eapply Rle_trans; [| apply Rmult_le_compat_l; [lra | exact Hww]].
  right. rewrite S_INR. field. rewrite S_INR in Hn1. lra.
Qed.

(** [gauss_int + gauss / id] decreases on the positive reals. *)
Lemma mills_decreasing : forall t x, 0 < t -> t <= x ->
  gauss_int x + gauss x / x <= gauss_int t + gauss t / t.
Proof.
  intros t x Ht Htx.
  pose proof (derivative_le_compare (gauss_int + gauss / id)%F (fct_cte 0)
                (fun c => gauss c + (- c * gauss c * id c - 1 * gauss c) / (id c)²)
                (fun _ => 0) t x Htx) as H.
  unfold plus_fct, div_fct, fct_cte, id in H.
  assert (gauss_int x + gauss x / x - (gauss_int t + gauss t / t) <= 0 - 0); [| lra].
  apply H.
  - intros c Hc. apply derivable_pt_lim_plus; [apply gauss_int_derivable |].
    apply derivable_pt_lim_div;
      [apply gauss_derivable | apply derivable_pt_lim_id | unfold id; lra].
  - intros. apply derivable_pt_lim_const.
  - intros c Hc. unfold Rsqr.
    replace (gauss c + (- c * gauss c * c - 1 * gauss c) / (c * c))
      with (- (gauss c / (c * c))) by (field; lra).
    assert (0 < gauss c / (c * c)); [| lra].
    apply Rdiv_lt_0_compat; [apply gauss_pos | nra].
Qed.

(** The Mills bound on the Gaussian tail. *)
Lemma mills_bound : forall t, 0 < t ->
  sqrt (2 * PI) / 2 <= gauss_int t + gauss t / t.
Proof.
  intros t Ht. pose proof PI_RGT_0 as Hpi. pose proof sqrt_2PI_pos as Hb.
  set (Y := gauss_int t + gauss t / t).
  assert (HY : 0 <= Y).
  { unfold Y. pose proof (gauss_int_nonneg t (Rlt_le _ _ Ht)).
    assert (0 < gauss t / t) by (apply Rdiv_lt_0_compat; [apply gauss_pos | lra]).
    lra. }
  assert (Hbb : sqrt (2 * PI) / 2 * (sqrt (2 * PI) / 2) = PI / 2).
  { replace (sqrt (2 * PI) / 2 * (sqrt (2 * PI) / 2))
      with (sqrt (2 * PI) * sqrt (2 * PI) / 4) by field.
    rewrite sqrt_sqrt; lra. }
  assert (Hb2 : 0 < sqrt (2 * PI) / 2) by lra.
  destruct (Rle_or_lt (sqrt (2 * PI) / 2) Y) as [H | H]; [exact H | exfalso].
  set (B := sqrt (2 * PI) / 2) in *.
  assert (Hlt : Y * Y < B * B).
  { destruct HY as [HY | <-]; [apply Rmult_le_0_lt_compat; lra | nra]. }
  set (d := B * B - Y * Y). assert (Hd : 0 < d) by (unfold d; lra).
  destruct (INR_unbounded (Rmax (t * t / 2) (PI / 2 / d))) as [n Hn].
  assert (Hn1 : t * t / 2 < INR n) by (eapply Rle_lt_trans; [apply Rmax_l | exact Hn]).
  assert (Hn2 : PI / 2 / d < INR n) by (eapply Rle_lt_trans; [apply Rmax_r | exact Hn]).
  set (s := sqrt (2 * INR n)).
  assert (Hts : t <= s).
  { unfold s. rewrite <- (sqrt_Rsqr t) by lra. apply sqrt_le_1_alt. unfold Rsqr. lra. }
  pose proof (mills_decreasing t s Ht Hts) as Hdec. fold Y in Hdec.
  assert (Hs0 : 0 < s) by lra.
  assert (HGs : gauss_int s <= Y).
  { assert (0 < gauss s / s) by (apply Rdiv_lt_0_compat; [apply gauss_pos | lra]). lra. }
  pose proof (gauss_int_nonneg s (Rlt_le _ _ Hs0)) as HG0.
  assert (Hsq : gauss_int s * gauss_int s <= Y * Y)
    by (apply Rmult_le_compat; assumption).
  pose proof (gauss_int_square_ge n) as Hge. fold s in Hge.
  assert (Hpos : 0 < PI / 2 / d) by (apply Rdiv_lt_0_compat; lra).
  assert (Hq : PI / 2 / INR (S n) < d).
  { rewrite S_INR.
    assert (Hi : / (INR n + 1) < / (PI / 2 / d)) by (apply Rinv_lt_contravar; nra).
    replace (/ (PI / 2 / d)) with (d / (PI / 2)) in Hi by (field; lra).
    assert (PI / 2 * / (INR n + 1) < PI / 2 * (d / (PI / 2)))
      by (apply Rmult_lt_compat_l; lra).
    replace (PI / 2 * (d / (PI / 2))) with d in * by (field; lra).
    unfold Rdiv at 1. assumption. }
  unfold d in Hq. lra.
Qed.

(** [y Phi(y) + phi(y)] is never negative. *)
Lemma Phi_mills : forall y, 0 <= y * Phi y + gauss y / sqrt (2 * PI).
Proof.
  intro y. pose proof sqrt_2PI_pos as Hb. pose proof (gauss_pos y) as Hg.
  assert (Hgd : 0 < gauss y / sqrt (2 * PI)) by now apply Rdiv_lt_0_compat.
  destruct (Rle_or_lt 0 y) as [Hy | Hy].
  - destruct (Phi_bounds y) as [H0 _].
    assert (0 <= y * Phi y) by now apply Rmult_le_pos. lra.
  - assert (Ht : 0 < - y) by lra.
    pose proof (mills_bound (- y) Ht) as Hm. rewrite gauss_even in Hm.
    replace y with (- - y) at 2 by ring. rewrite Phi_opp. unfold Phi.
    replace (y * (1 - (1 / 2 + gauss_int (- y) / sqrt (2 * PI))) + gauss y / sqrt (2 * PI))
      with ((- y) * (gauss_int (- y) + gauss y / - y - sqrt (2 * PI) / 2) / sqrt (2 * PI))
      by (field; lra).
    apply Rmult_le_pos; [| left; now apply Rinv_0_lt_compat].
    apply Rmult_le_pos; lra.
Qed.

(** The price of an option in units of its strike leg:
    [exp (x a + a^2 / 2) Phi (x + a) - Phi x >= 0] for [a >= 0]. *)
Lemma option_value_nonneg : forall x a, 0 <= a ->
  0 <= exp (x * a + a * a / 2) * Phi (x + a) - Phi x.
Proof.
  intros x a Ha.
  set (E := (mult_real_fct x id + mult_real_fct (/ 2) (id * id))%F).
  set (u := (comp exp E * comp Phi (fct_cte x + id) - fct_cte (Phi x))%F).
  pose proof (derivative_le_compare (fct_cte 0) u (fun _ => 0)
                (fun c => exp (E c) * (x * 1 + / 2 * (1 * id c + id c * 1))
                          * comp Phi (fct_cte x + id)%F c
                          + comp exp E c * (gauss ((fct_cte x + id)%F c)
                                            / sqrt (2 * PI) * (0 + 1)) - 0)
                0 a Ha) as H.
  assert (Hu : forall c, u c = exp (x * c + c * c / 2) * Phi (x + c) - Phi x).
  { intro c. unfold u, E, minus_fct, mult_fct, comp, plus_fct, mult_real_fct, fct_cte, id.
    replace (x * c + / 2 * (c * c)) with (x * c + c * c / 2) by field. reflexivity. }
  rewrite <- Hu.
  assert (Hu0 : u 0 = 0).
  { rewrite Hu. replace (x * 0 + 0 * 0 / 2) with 0 by field.
    rewrite exp_0, Rplus_0_r. ring. }
  assert (fct_cte 0 a - fct_cte 0 0 <= u a - u 0); [| unfold fct_cte in *; lra].
  apply H.
  - intros. apply derivable_pt_lim_const.
  - intros c _. unfold u. apply derivable_pt_lim_minus; [| apply derivable_pt_lim_const].
    apply derivable_pt_lim_mult.
    + apply derivable_pt_lim_comp; [| apply derivable_pt_lim_exp].
      unfold E. apply derivable_pt_lim_plus.
      * apply derivable_pt_lim_scal, derivable_pt_lim_id.
      * apply derivable_pt_lim_scal, derivable_pt_lim_mult; apply derivable_pt_lim_id.
    + apply derivable_pt_lim_comp; [| apply Phi_derivable].
      apply derivable_pt_lim_plus; [apply derivable_pt_lim_const | apply derivable_pt_lim_id].
  - intros c _. unfold comp, plus_fct, fct_cte, id.
    pose proof (exp_pos (E c)) as He.
    pose proof (Phi_mills (x + c)) as Hm.
    replace (exp (E c) * (x * 1 + / 2 * (1 * c + c * 1)) * Phi (x + c)
             + exp (E c) * (gauss (x + c) / sqrt (2 * PI) * (0 + 1)) - 0)
      with (exp (E c) * ((x + c) * Phi (x + c) + gauss (x + c) / sqrt (2 * PI)))
      by (pose proof sqrt_2PI_pos; field; lra).
    apply Rmult_le_pos; lra.
Qed.

Lemma d2_exponent : forall S K T r sigma, 0 < T -> 0 < sigma ->
  bs_d2 S K T r sigma * (sigma * sqrt T) + (sigma * sqrt T) * (sigma * sqrt T) / 2
  = ln (S / K) + r * T.
Proof.
  intros S K T r sigma HT Hs.
  pose proof (sigma_sqrtT_pos T sigma HT Hs) as Hden.
  assert (Hw : 0 < sqrt T) by now apply sqrt_lt_R0.
  assert (HTw : sqrt T * sqrt T = T) by (apply sqrt_sqrt; lra).
  unfold bs_d2.
  assert (Hd : bs_d1 S K T r sigma * (sigma * sqrt T)
               = ln (S / K) + (r + sigma ^ 2 / 2) * T).
  { unfold bs_d1. field. lra. }
  replace ((bs_d1 S K T r sigma - sigma * sqrt T) * (sigma * sqrt T)
           + sigma * sqrt T * (sigma * sqrt T) / 2)
    with (bs_d1 S K T r sigma * (sigma * sqrt T) - sigma ^ 2 * (sqrt T * sqrt T) / 2)
    by field.
  rewrite Hd, HTw. field.
Qed.

(** An option is never worth less than nothing. *)
Lemma call_formula_nonneg :
  forall S K T r sigma, 0 < S -> 0 < K -> 0 < T -> 0 < sigma ->
    0 <= call_formula S K T r sigma.
Proof.
  intros S K T r sigma HS HK HT Hs.
  pose proof (sigma_sqrtT_pos T sigma HT Hs) as Ha.
  set (a := sigma * sqrt T) in *. set (x := bs_d2 S K T r sigma).
  pose proof (option_value_nonneg x a (Rlt_le _ _ Ha)) as Hu.
  pose proof (d2_exponent S K T r sigma HT Hs) as HE. fold a x in HE.
  rewrite HE in Hu.
  rewrite exp_plus, exp_ln in Hu by (now apply ratio_pos).
  unfold call_formula. fold x.
  replace (bs_d1 S K T r sigma) with (x + a) by (unfold x, a, bs_d2; ring).
  pose proof (exp_pos (- (r * T))) as He.
  assert (Hinv : exp (- (r * T)) * exp (r * T) = 1).
  { rewrite <- exp_plus. replace (- (r * T) + r * T) with 0 by ring. apply exp_0. }
  replace (S * Phi (x + a) - K * exp (- (r * T)) * Phi x)
    with (K * exp (- (r * T)) * (S / K * exp (r * T) * Phi (x + a) - Phi x)).
  - apply Rmult_le_pos; [apply Rmult_le_pos; lra | exact Hu].
  - replace (K * exp (- (r * T)) * (S / K * exp (r * T) * Phi (x + a) - Phi x))
      with (S * Phi (x + a) * (exp (- (r * T)) * exp (r * T))
            - K * exp (- (r * T)) * Phi x) by (field; lra).
    rewrite Hinv. ring.
Qed.

Lemma put_formula_nonneg :
  forall S K T r sigma, 0 < S -> 0 < K -> 0 < T -> 0 < sigma ->
    0 <= put_formula S K T r sigma.
Proof.
  intros S K T r sigma HS HK HT Hs.
  pose proof (sigma_sqrtT_pos T sigma HT Hs) as Ha.
  set (a := sigma * sqrt T) in *. set (x := - bs_d1 S K T r sigma).
  pose proof (option_value_nonneg x a (Rlt_le _ _ Ha)) as Hu.
  pose proof (d2_exponent S K T r sigma HT Hs) as HE. fold a in HE.
  assert (HE' : x * a + a * a / 2 = - (ln (S / K) + r * T)).
  { rewrite <- HE. unfold x, bs_d2. fold a. field. }
  rewrite HE' in Hu.
  replace (- (ln (S / K) + r * T)) with (- ln (S / K) + - (r * T)) in Hu by ring.
  rewrite exp_plus, exp_Ropp, exp_ln in Hu by (now apply ratio_pos).
  unfold put_formula.
  replace (- bs_d2 S K T r sigma) with (x + a) by (unfold x, a, bs_d2; ring).
  fold x.
  replace (K * exp (- (r * T)) * Phi (x + a) - S * Phi x)
    with (S * (/ (S / K) * exp (- (r * T)) * Phi (x + a) - Phi x)) by (field; lra).
  apply Rmult_le_pos; [lra | exact Hu].
Qed.

(** ** Sensitivities of the closed forms *)

Lemma call_formula_increasing :
  forall S K T r s1 s2, 0 < S -> 0 < K -> 0 < T -> 0 < s1 -> s1 < s2 ->
    call_formula S K T r s1 < call_formula S K T r s2.
Proof.
  intros S K T r s1 s2 HS HK HT H1 H12.
  destruct (MVT_cor2 (call_formula S K T r) (vega S K T r) s1 s2 H12) as (c & Hc & Hin).
  - intros c Hc. apply call_formula_derivable; lra.
  - pose proof (vega_pos S K T r c HS HT) as Hv.
    assert (0 < vega S K T r c * (s2 - s1)) by (apply Rmult_lt_0_compat; lra).
    lra.
Qed.

Lemma call_formula_injective :
  forall S K T r s1 s2, 0 < S -> 0 < K -> 0 < T -> 0 < s1 -> 0 < s2 ->
    call_formula S K T r s1 = call_formula S K T r s2 -> s1 = s2.
Proof.
  intros S K T r s1 s2 HS HK HT H1 H2 E.
  destruct (Rtotal_order s1 s2) as [H | [H | H]]; [| exact H |].
  - pose proof (call_formula_increasing S K T r s1 s2 HS HK HT H1 H). lra.
  - pose proof (call_formula_increasing S K T r s2 s1 HS HK HT H2 H). lra.
Qed.








(** ** The pricer at the edge of its domain *)

(** The closed form is what the code computes for a volatility of either
    sign, as long as it is not zero. *)
Lemma BS_CALL_nonzero_sigma :
  forall S K T r sigma, 0 < S -> 0 < K -> 0 < T -> sigma <> 0 ->
    BS_CALL S K T r sigma = Ret (Fin (call_formula S K T r sigma)).
Proof.
  intros S K T r sigma HS HK HT Hs.
  assert (Hw : 0 < sqrt T) by now apply sqrt_lt_R0.
  assert (Hden : sigma * sqrt T <> 0) by (apply Rmult_integral_contrapositive_currified; lra).
  pose proof (ratio_pos S K HS HK) as Hq.
  unfold BS_CALL, py_div.
  destruct (Req_dec_T K 0) as [HK0 | _]; [lra |].
  cbn [bind np_log np_sqrt np_exp fmul fadd].
  destruct (total_order_T (S / K) 0) as [[Hlt | Heq] | _]; [lra | lra |].
  destruct (Rlt_dec T 0) as [HT0 | _]; [lra |].
  cbn [fdiv fmul fadd].
  destruct (Req_dec_T (sigma * sqrt T) 0) as [H0 | _]; [contradiction |].
  cbn. unfold call_formula, bs_d2, bs_d1.
  replace (- r * T) with (- (r * T)) by ring.
  reflexivity.
Qed.

Lemma BS_PUT_nonzero_sigma :
  forall S K T r sigma, 0 < S -> 0 < K -> 0 < T -> sigma <> 0 ->
    BS_PUT S K T r sigma = Ret (Fin (put_formula S K T r sigma)).
Proof.
  intros S K T r sigma HS HK HT Hs.
  assert (Hw : 0 < sqrt T) by now apply sqrt_lt_R0.
  assert (Hden : sigma * sqrt T <> 0) by (apply Rmult_integral_contrapositive_currified; lra).
  pose proof (ratio_pos S K HS HK) as Hq.
  unfold BS_PUT, py_div.
  destruct (Req_dec_T K 0) as [HK0 | _]; [lra |].
  cbn [bind np_log np_sqrt np_exp fmul fadd].
  destruct (total_order_T (S / K) 0) as [[Hlt | Heq] | _]; [lra | lra |].
  destruct (Rlt_dec T 0) as [HT0 | _]; [lra |].
  cbn [fdiv fmul fadd].
  destruct (Req_dec_T (sigma * sqrt T) 0) as [H0 | _]; [contradiction |].
  cbn. unfold put_formula, bs_d2, bs_d1.
  replace (- r * T) with (- (r * T)) by ring.
  reflexivity.
Qed.

Lemma bs_d1_opp_sigma : forall S K T r sigma, 0 < T -> sigma <> 0 ->
  bs_d1 S K T r (- sigma) = - bs_d1 S K T r sigma.
Proof.
  intros S K T r sigma HT Hs. unfold bs_d1.
  assert (Hw : 0 < sqrt T) by now apply sqrt_lt_R0.
  field. split; lra.
Qed.

Lemma call_formula_opp_sigma : forall S K T r sigma, 0 < T -> sigma <> 0 ->
  call_formula S K T r (- sigma) = - put_formula S K T r sigma.
Proof.
  intros S K T r sigma HT Hs. unfold call_formula, put_formula, bs_d2.
  rewrite (bs_d1_opp_sigma S K T r sigma HT Hs).
  replace (- bs_d1 S K T r sigma - - sigma * sqrt T)
    with (- (bs_d1 S K T r sigma - sigma * sqrt T)) by ring.
  ring.
Qed.

Lemma put_formula_opp_sigma : forall S K T r sigma, 0 < T -> sigma <> 0 ->
  put_formula S K T r (- sigma) = - call_formula S K T r sigma.
Proof.
  intros S K T r sigma HT Hs. unfold call_formula, put_formula, bs_d2.
  rewrite (bs_d1_opp_sigma S K T r sigma HT Hs).
  replace (- (- bs_d1 S K T r sigma - - sigma * sqrt T))
    with (bs_d1 S K T r sigma - sigma * sqrt T) by ring.
  rewrite Ropp_involutive. ring.
Qed.

(** A zero denominator in [d1]: the price is decided by the sign of the
    numerator [x]. *)
Lemma BS_CALL_zero_denominator :
  forall S K T r sigma, 0 < S -> 0 < K -> 0 <= T -> sigma * sqrt T = 0 ->
    let x := ln (S / K) + (r + sigma ^ 2 / 2) * T in
    BS_CALL S K T r sigma =
      Ret (match total_order_T x 0 with
           | inleft (left _) => Fin 0
           | inleft (right _) => NaN
           | inright _ => Fin (S - K * exp (- (r * T)))
           end).
Proof.
  intros S K T r sigma HS HK HT Hden x.
  pose proof (ratio_pos S K HS HK) as Hq.
  unfold BS_CALL, py_div.
  destruct (Req_dec_T K 0) as [HK0 | _]; [lra |].
  cbn [bind np_log np_sqrt np_exp fmul fadd].
  destruct (total_order_T (S / K) 0) as [[Hlt | Heq] | _]; [lra | lra |].
  destruct (Rlt_dec T 0) as [HT0 | _]; [lra |].
  cbn [fdiv fmul fadd].
  destruct (Req_dec_T (sigma * sqrt T) 0) as [_ | H0]; [| contradiction].
  fold x. unfold inf_times.
  replace (- r * T) with (- (r * T)) by ring.
  destruct (total_order_T x 0) as [[Hx | Hx] | Hx]; cbn.
  - do 2 f_equal. ring.
  - reflexivity.
  - do 2 f_equal. ring.
Qed.

Lemma BS_PUT_zero_denominator :
  forall S K T r sigma, 0 < S -> 0 < K -> 0 <= T -> sigma * sqrt T = 0 ->
    let x := ln (S / K) + (r + sigma ^ 2 / 2) * T in
    BS_PUT S K T r sigma =
      Ret (match total_order_T x 0 with
           | inleft (left _) => Fin (K * exp (- (r * T)) - S)
           | inleft (right _) => NaN
           | inright _ => Fin 0
           end).
Proof.
  intros S K T r sigma HS HK HT Hden x.
  pose proof (ratio_pos S K HS HK) as Hq.
  unfold BS_PUT, py_div.
  destruct (Req_dec_T K 0) as [HK0 | _]; [lra |].
  cbn [bind np_log np_sqrt np_exp fmul fadd].
  destruct (total_order_T (S / K) 0) as [[Hlt | Heq] | _]; [lra | lra |].
  destruct (Rlt_dec T 0) as [HT0 | _]; [lra |].
  cbn [fdiv fmul fadd].
  destruct (Req_dec_T (sigma * sqrt T) 0) as [_ | H0]; [| contradiction].
  fold x. unfold inf_times.
  replace (- r * T) with (- (r * T)) by ring.
  destruct (total_order_T x 0) as [[Hx | Hx] | Hx]; cbn.
  - do 2 f_equal. ring.
  - reflexivity.
  - do 2 f_equal. ring.
Qed.

(** ** Rounding error *)

Lemma round_half_even_error : forall y, Rabs (IZR (round_half_even y) - y) <= 1 / 2.
Proof.
  intro y. unfold round_half_even.
  destruct (base_fp y) as [Hf0 Hf1].
  assert (Hy : y = IZR (Int_part y) + frac_part y) by (unfold frac_part; ring).
  set (n := Int_part y) in *. set (f := frac_part y) in *.
  assert (Hn1 : IZR (n + 1) = IZR n + 1) by (rewrite plus_IZR; reflexivity).
  destruct (Rlt_dec f (1 / 2)) as [H1 | H1].
  - unfold Rabs. destruct (Rcase_abs (IZR n - y)); lra.
  - destruct (Rlt_dec (1 / 2) f) as [H2 | H2].
    + rewrite Hn1. unfold Rabs. destruct (Rcase_abs (IZR n + 1 - y)); lra.
    + destruct (Z.even n).
      * unfold Rabs. destruct (Rcase_abs (IZR n - y)); lra.
      * rewrite Hn1. unfold Rabs. destruct (Rcase_abs (IZR n + 1 - y)); lra.
Qed.

Lemma py_round_error : forall x n, Rabs (py_round x n - x) <= / (2 * 10 ^ n).
Proof.
  intros x n. unfold py_round.
  assert (Hp : 0 < 10 ^ n) by (apply pow_lt; lra).
  set (z := IZR (round_half_even (x * 10 ^ n))).
  pose proof (round_half_even_error (x * 10 ^ n)) as H. fold z in H.
  replace (z / 10 ^ n - x) with ((z - x * 10 ^ n) * / 10 ^ n) by (field; lra).
  rewrite Rabs_mult, (Rabs_right (/ 10 ^ n))
    by (left; now apply Rinv_0_lt_compat).
  replace (/ (2 * 10 ^ n)) with (1 / 2 * / 10 ^ n) by (field; lra).
  apply Rmult_le_compat_r; [left; now apply Rinv_0_lt_compat | exact H].
Qed.

Lemma py_round_0 : forall n, py_round 0 n = 0.
Proof.
  intro n. unfold py_round, round_half_even, frac_part.
  rewrite Rmult_0_l.
  assert (E : Int_part 0 = 0%Z) by (apply Int_part_of; simpl; lra).
  rewrite E. simpl IZR.
  destruct (Rlt_dec (0 - 0) (1 / 2)); [| lra].
  unfold Rdiv. apply Rmult_0_l.
Qed.

(** ** More on the search loop *)

Lemma meets_tolerance_finite : forall est market,
  meets_tolerance est market = true ->
  exists e, est = Fin e /\ Rabs (e - market) < tolerance.
Proof.
  intros est market H. unfold meets_tolerance in H.
  destruct est as [e | | |]; cbn in H; try discriminate.
  exists e. split; [reflexivity |].
  destruct (Rlt_dec (Rabs (e + - market)) tolerance); [assumption | discriminate].
Qed.

Lemma meets_tolerance_close : forall e market,
  Rabs (e - market) < tolerance -> meets_tolerance (Fin e) market = true.
Proof.
  intros e market H. unfold meets_tolerance. cbn.
  destruct (Rlt_dec (Rabs (e + - market)) tolerance) as [_ | N]; [reflexivity |].
  exfalso. apply N. exact H.
Qed.

Lemma market_out_of_reach_below :
  forall e market, market + tolerance <= e -> meets_tolerance (Fin e) market = false.
Proof.
  intros e market H. unfold meets_tolerance, fsub, fneg, fadd, fabs, flt.
  destruct (Rlt_dec (Rabs (e + - market)) tolerance) as [Hlt | _]; [| reflexivity].
  exfalso. revert Hlt H. unfold tolerance, Rabs.
  destruct (Rcase_abs (e + - market)); lra.
Qed.

Lemma meets_tolerance_NaN : forall market, meets_tolerance NaN market = false.
Proof. reflexivity. Qed.

(** A property of sigma that the update keeps holds of every sigma the
    loop visits. *)
Lemma leg_invariant :
  forall (P : R -> Prop) price market,
    (forall s est, P s -> price s = Ret est -> meets_tolerance est market = false ->
                   P (next_sigma est market s)) ->
    forall n sigma, P sigma ->
      Forall P (visited (leg price market n sigma))
      /\ P (final_sigma (leg price market n sigma)).
Proof.
  intros P price market Hnext n. induction n as [| n IH]; intros sigma Hs.
  - simpl. split; [constructor | exact Hs].
  - destruct (leg_cases price market n sigma)
      as [(e & _ & ->) | [(est & _ & _ & ->) | (est & He & Hm & ->)]]; simpl.
    + split; [repeat constructor |]; exact Hs.
    + split; [repeat constructor |]; exact Hs.
    + destruct (IH _ (Hnext sigma est Hs He Hm)) as [Hv Hf].
      split; [constructor |]; assumption.
Qed.

(** The accepted sigma: a returned volatility is the rounding of a
    visited sigma whose estimate met the tolerance. *)
Lemma leg_some_meets : forall price market n sigma v,
  vol (leg price market n sigma) = Ret (Some v) ->
  exists s est, In s (visited (leg price market n sigma))
                /\ price s = Ret est
                /\ meets_tolerance est market = true
                /\ v = py_round s 4.
Proof.
  intros price market n. induction n as [| n IH]; intros sigma v.
  - simpl. discriminate.
  - destruct (leg_cases price market n sigma)
      as [(e & _ & ->) | [(est & He & Hm & ->) | (est & _ & _ & ->)]]; simpl.
    + discriminate.
    + intro H. injection H as <-. exists sigma, est.
      repeat split; trivial. now left.
    + intro H. destruct (IH _ _ H) as (s & est' & Hin & Hp & Hm & ->).
      exists s, est'. repeat split; trivial. now right.
Qed.

(** The sigma of iteration [k] is the seed times [k] factors, each 0.95
    or 1.05. *)
Lemma leg_grid : forall price market n sigma k s,
  nth_error (visited (leg price market n sigma)) k = Some s ->
  exists a b, (a + b = k)%nat /\ s = sigma * 0.95 ^ a * 1.05 ^ b.
Proof.
  intros price market n. induction n as [| n IH]; intros sigma k s.
  - simpl. destruct k; discriminate.
  - assert (H0 : forall l, nth_error (sigma :: l) k = Some s ->
                 (k = 0%nat /\ s = sigma) \/ exists k', k = S k' /\ nth_error l k' = Some s).
    { intros l H. destruct k as [| k']; simpl in H.
      - left. split; congruence.
      - right. exists k'. split; trivial. }
    assert (Hbase : s = sigma -> exists a b, (a + b = 0)%nat /\ s = sigma * 0.95 ^ a * 1.05 ^ b).
    { intros ->. exists 0%nat, 0%nat. split; [reflexivity | simpl; ring]. }
    assert (Hnil : forall k', nth_error (@nil R) k' = Some s -> False)
      by (intros [|]; discriminate).
    destruct (leg_cases price market n sigma)
      as [(e & _ & ->) | [(est & _ & _ & ->) | (est & _ & _ & ->)]]; simpl visited;
      intro H; destruct (H0 _ H) as [[-> ->] | (k' & -> & Hk')].
    + now apply Hbase.
    + now apply Hnil in Hk'.
    + now apply Hbase.
    + now apply Hnil in Hk'.
    + now apply Hbase.
    + destruct (IH _ _ _ Hk') as (a & b & Hab & ->).
      rewrite next_sigma_scaled. destruct (fgt est (Fin market)).
      * exists (S a), b. split; [lia | simpl; ring].
      * exists a, (S b). split; [lia | simpl; ring].
Qed.

(** A loop none of whose reachable sigmas meets the tolerance. *)
Lemma leg_never_met :
  forall (P : R -> Prop) price market,
    (forall s est, P s -> price s = Ret est -> meets_tolerance est market = false ->
                   P (next_sigma est market s)) ->
    (forall s, P s -> exists est, price s = Ret est /\ meets_tolerance est market = false) ->
    forall n sigma, P sigma ->
      vol (leg price market n sigma) = Ret None
      /\ length (visited (leg price market n sigma)) = n.
Proof.
  intros P price market Hnext Hno n. induction n as [| n IH]; intros sigma Hs.
  - split; reflexivity.
  - destruct (Hno sigma Hs) as (est & He & Hm).
    rewrite (leg_continue _ _ _ _ est He Hm). simpl.
    destruct (IH _ (Hnext sigma est Hs He Hm)) as [Hv Hl].
    split; [exact Hv | now rewrite Hl].
Qed.

Lemma next_sigma_neg : forall est market sigma, sigma < 0 -> next_sigma est market sigma < 0.
Proof. intros. unfold next_sigma. destruct (fgt est (Fin market)); lra. Qed.

Lemma next_sigma_zero : forall est market, next_sigma est market 0 = 0.
Proof. intros. unfold next_sigma. destruct (fgt est (Fin market)); lra. Qed.

Lemma comprehension_map : forall (A B : Type) (f : A -> outcome B) (g : A -> B) xs,
  (forall x, In x xs -> f x = Ret (g x)) -> comprehension f xs = Ret (map g xs).
Proof.
  intros A B f g xs. induction xs as [| x xs IH]; intro H.
  - reflexivity.
  - cbn [comprehension map]. rewrite (H x (or_introl eq_refl)).
    rewrite IH by (intros y Hy; apply H; now right). reflexivity.
Qed.

Lemma comprehension_raise : forall (A B : Type) (f : A -> outcome B) e x xs,
  f x = Raise e -> comprehension f (x :: xs) = Raise e.
Proof. intros * H. cbn [comprehension]. rewrite H. reflexivity. Qed.

Lemma R_ceil_of : forall (x : R) (z : Z), IZR z - 1 < x <= IZR z -> R_ceil x = z.
Proof.
  intros x z H. unfold R_ceil.
  rewrite (Int_part_of (- x) (- z)); [lia |].
  rewrite opp_IZR. lra.
Qed.

Lemma np_arange_length : forall start stop step (n : nat),
  INR n - 1 < (stop - start) / step <= INR n ->
  length (np_arange start stop step) = n.
Proof.
  intros start stop step n H. unfold np_arange.
  rewrite length_map, length_seq.
  rewrite (R_ceil_of _ (Z.of_nat n)); [apply Nat2Z.id |].
  rewrite <- INR_IZR_INZ. exact H.
Qed.

Lemma np_arange_nth : forall start stop step k x,
  nth_error (np_arange start stop step) k = Some x -> x = start + INR k * step.
Proof.
  intros start stop step k x H. unfold np_arange in H.
  rewrite nth_error_map in H.
  destruct (nth_error (seq 0 _) k) as [i |] eqn:E; [| discriminate].
  injection H as <-.
  assert (Hk : (k < length (seq 0 (Z.to_nat (R_ceil ((stop - start) / step)))))%nat).
  { apply nth_error_Some. rewrite E. discriminate. }
  rewrite length_seq in Hk.
  rewrite (nth_error_nth' _ 0%nat) in E by (rewrite length_seq; exact Hk).
  rewrite seq_nth in E by exact Hk. injection E as <-. reflexivity.
Qed.

Lemma np_arange_in : forall start stop step x,
  0 <= step -> In x (np_arange start stop step) -> start <= x.
Proof.
  intros start stop step x Hs H.
  apply In_nth_error in H as [k Hk]. apply np_arange_nth in Hk. subst x.
  pose proof (pos_INR k). nra.
Qed.

Lemma np_arange_sorted : forall start stop step i j x y,
  0 <= step -> (i <= j)%nat ->
  nth_error (np_arange start stop step) i = Some x ->
  nth_error (np_arange start stop step) j = Some y -> x <= y.
Proof.
  intros start stop step i j x y Hs Hij Hx Hy.
  apply np_arange_nth in Hx, Hy. subst.
  apply le_INR in Hij. nra.
Qed.

Lemma Sigmas_length : length (np_arange 0.01 1.5 0.01) = 149%nat.
Proof.
  apply np_arange_length.
  replace ((1.5 - 0.01) / 0.01) with 149 by lra.
  replace (INR 149) with 149 by (rewrite INR_IZR_INZ; reflexivity). lra.
Qed.


Lemma rows_at_strike : forall rows strike row,
  In row (rows_at rows strike) -> In row rows /\ fst row = strike.
Proof.
  intros rows strike row H. unfold rows_at in H.
  apply filter_In in H as [Hin Hb]. split; [exact Hin |].
  unfold Req_bool in Hb. destruct (Req_dec_T (fst row) strike); [assumption | discriminate].
Qed.

Lemma rows_at_nonempty : forall rows row,
  In row rows -> rows_at rows (fst row) <> [].
Proof.
  intros rows row Hin E.
  assert (H : In row (rows_at rows (fst row))).
  { unfold rows_at. apply filter_In. split; [exact Hin |].
    unfold Req_bool. destruct (Req_dec_T (fst row) (fst row)); [reflexivity | contradiction]. }
  rewrite E in H. exact H.
Qed.

Lemma compare_date_in_sync : forall option_chain strike S r sigma st date,
  strike <> 0 -> in_sync st ->
  in_sync (compare_date option_chain strike S r sigma st date).
Proof.
  intros option_chain strike S r sigma st date HK Hst.
  unfold compare_date.
  destruct (option_chain date) as [[calls puts] |]; [| exact Hst].
  destruct (rows_at calls strike) as [| fc fcs]; [exact Hst |].
  destruct (rows_at puts strike) as [| fp fps]; [exact Hst |].
  destruct (BS_CALL_returns S strike (IZR date / 365) r sigma HK) as [c ->].
  destruct (BS_PUT_returns S strike (IZR date / 365) r sigma HK) as [p ->].
  destruct Hst as (H1 & H2 & H3 & H4). unfold in_sync. cbn.
  rewrite !length_app. cbn. lia.
Qed.

Lemma fold_compare_in_sync : forall option_chain strike S r sigma dates st,
  strike <> 0 -> in_sync st ->
  in_sync (fold_left (compare_date option_chain strike S r sigma) dates st).
Proof.
  intros option_chain strike S r sigma dates.
  induction dates as [| d dates IH]; intros st HK Hst; [exact Hst |].
  cbn [fold_left]. apply IH; [exact HK |]. now apply compare_date_in_sync.
Qed.

Lemma compare_date_zero_strike : forall option_chain S r sigma st date,
  only_market_calls st ->
  only_market_calls (compare_date option_chain 0 S r sigma st date)
  /\ (length (market_call_prices st)
      <= length (market_call_prices (compare_date option_chain 0 S r sigma st date)))%nat.
Proof.
  intros option_chain S r sigma st date Hst.
  unfold compare_date.
  destruct (option_chain date) as [[calls puts] |]; [| split; [exact Hst | lia]].
  destruct (rows_at calls 0) as [| fc fcs]; [split; [exact Hst | lia] |].
  destruct (rows_at puts 0) as [| fp fps]; [split; [exact Hst | lia] |].
  rewrite BS_CALL_zero_strike. cbn. split; [exact Hst |].
  rewrite length_app. cbn. lia.
Qed.

Lemma scatter_points_returns :
  forall (vol_of : R -> R -> outcome (option R)) (good : R -> R -> option R -> Prop) rows strikes,
    (forall strike, In strike strikes -> rows_at rows strike <> []) ->
    (forall m strike, In strike strikes ->
       exists v, vol_of m strike = Ret v /\ good m strike v) ->
    exists pts,
      scatter_points vol_of rows strikes = Ret pts
      /\ map fst pts = strikes
      /\ forall strike v, In (strike, v) pts ->
           exists row rest, rows_at rows strike = row :: rest /\ good (snd row) strike v.
Proof.
  intros vol_of good rows strikes. induction strikes as [| strike rest IH]; intros Hrows Hvol.
  - exists []. repeat split. intros ? ? [].
  - destruct IH as (pts & E & Hfst & Hpts).
    + intros k Hk. apply Hrows. now right.
    + intros m k Hk. apply Hvol. now right.
    + cbn [scatter_points].
      destruct (rows_at rows strike) as [| row others] eqn:Er.
      * exfalso. apply (Hrows strike); [now left | exact Er].
      * destruct (Hvol (snd row) strike (or_introl eq_refl)) as (v & Ev & Hg).
        exists ((strike, v) :: pts). rewrite Ev, E. cbn [bind]. repeat split.
        -- cbn. now rewrite Hfst.
        -- intros k w [Hin | Hin].
           ++ injection Hin as <- <-. exists row, others. split; [exact Er | exact Hg].
           ++ now apply Hpts.
Qed.




Lemma strikes_have_rows : forall (rows : chain_rows) strike,
  In strike (map fst rows) -> rows_at rows strike <> [].
Proof.
  intros rows strike H. apply in_map_iff in H as (row & <- & Hin).
  now apply rows_at_nonempty.
Qed.

(** ** Helpers for the further properties *)

Lemma put_formula_le_strike :
  forall S K T r sigma, 0 < S -> 0 < K -> put_formula S K T r sigma <= K * exp (- (r * T)).
Proof.
  intros S K T r sigma HS HK.
  pose proof (call_formula_le_spot S K T r sigma HS HK).
  pose proof (parity_formula S K T r sigma). lra.
Qed.

Lemma put_formula_increasing :
  forall S K T r s1 s2, 0 < S -> 0 < K -> 0 < T -> 0 < s1 -> s1 < s2 ->
    put_formula S K T r s1 < put_formula S K T r s2.
Proof.
  intros S K T r s1 s2 HS HK HT H1 H12.
  pose proof (call_formula_increasing S K T r s1 s2 HS HK HT H1 H12).
  pose proof (parity_formula S K T r s1).
  pose proof (parity_formula S K T r s2). lra.
Qed.

Lemma fgt_Fin : forall a b, fgt (Fin a) (Fin b) = true <-> b < a.
Proof.
  intros a b. unfold fgt, flt. destruct (Rlt_dec b a); split; intro H;
    try reflexivity; try assumption; try discriminate; contradiction.
Qed.

(** The search for the price of a known volatility [target], for a price
    function that increases with sigma: the update always steps toward
    [target], so sigma stays between the seed and [target] widened by
    one step. *)
Lemma leg_bracket :
  forall (f : R -> R) price target sigma0 n,
    0 < target -> 0 < sigma0 ->
    (forall s, 0 < s -> price s = Ret (Fin (f s))) ->
    (forall s1 s2, 0 < s1 -> s1 < s2 -> f s1 < f s2) ->
    Forall (fun s => Rmin sigma0 (0.95 * target) <= s <= Rmax sigma0 (1.05 * target))
           (visited (leg price (f target) n sigma0)).
Proof.
  intros f price target sigma0 n Ht H0 Hprice Hinc.
  set (lo := Rmin sigma0 (0.95 * target)). set (hi := Rmax sigma0 (1.05 * target)).
  assert (Hlo : 0 < lo) by (unfold lo; apply Rmin_glb_lt; lra).
  assert (Hlo1 : lo <= 0.95 * target) by apply Rmin_r.
  assert (Hhi1 : 1.05 * target <= hi) by apply Rmax_r.
  apply (leg_invariant (fun s => lo <= s <= hi)).
  - intros s est [Hs1 Hs2] He Hm.
    assert (Hs : 0 < s) by lra.
    rewrite (Hprice s Hs) in He. injection He as <-.
    rewrite next_sigma_scaled.
    destruct (Rtotal_order s target) as [Hlt | [Heq | Hgt]].
    + pose proof (Hinc s target Hs Hlt) as Hf.
      destruct (fgt (Fin (f s)) (Fin (f target))) eqn:Eg.
      * apply fgt_Fin in Eg. lra.
      * lra.
    + subst s. rewrite meets_tolerance_close in Hm; [discriminate |].
      replace (f target - f target) with 0 by ring. rewrite Rabs_R0. unfold tolerance. lra.
    + pose proof (Hinc target s Ht Hgt) as Hf.
      destruct (fgt (Fin (f s)) (Fin (f target))) eqn:Eg.
      * lra.
      * assert (Hg : fgt (Fin (f s)) (Fin (f target)) = true) by (apply fgt_Fin; exact Hf).
        congruence.
  - split; [apply Rmin_l | apply Rmax_l].
Qed.

(** ** Further properties of the pricer *)













Lemma ln_ratio_sign : forall a b, 0 < a -> 0 < b ->
  (b < a -> 0 < ln (a / b)) /\ (a < b -> ln (a / b) < 0) /\ (a = b -> ln (a / b) = 0).
Proof.
  intros a b Ha Hb. pose proof (ratio_pos a b Ha Hb) as Hq.
  assert (E : a / b * b = a) by (field; lra).
  repeat split; intro H.
  - rewrite <- ln_1. apply ln_increasing; [lra |].
    apply Rmult_lt_reg_r with b; [exact Hb |]. lra.
  - rewrite <- ln_1. apply ln_increasing; [exact Hq |].
    apply Rmult_lt_reg_r with b; [exact Hb |]. lra.
  - subst b. replace (a / a) with 1 by (field; lra). apply ln_1.
Qed.

Lemma ln_forward : forall S K T r, 0 < S -> 0 < K ->
  ln (S / K) + r * T = ln (S / (K * exp (- (r * T)))).
Proof.
  intros S K T r HS HK. pose proof (exp_pos (r * T)) as He.
  replace (S / (K * exp (- (r * T)))) with (S / K * exp (r * T)).
  - rewrite ln_mult by (try apply ratio_pos; assumption). now rewrite ln_exp.
  - rewrite exp_Ropp. field. lra.
Qed.

(** X8: at a zero volatility (S, K, T > 0, sigma = 0) the prices are the
    discounted payoffs: [S - K * exp (-rT)] and [0] when
    [S > K * exp (-rT)], [0] and [K * exp (-rT) - S] when
    [S < K * exp (-rT)]; when [S = K * exp (-rT)] both are NaN. *)
Theorem zero_sigma_prices :
  forall S K T r, 0 < S -> 0 < K -> 0 < T ->
    (K * exp (- (r * T)) < S ->
       BS_CALL S K T r 0 = Ret (Fin (S - K * exp (- (r * T))))
       /\ BS_PUT S K T r 0 = Ret (Fin 0))
    /\ (S < K * exp (- (r * T)) ->
          BS_CALL S K T r 0 = Ret (Fin 0)
          /\ BS_PUT S K T r 0 = Ret (Fin (K * exp (- (r * T)) - S)))
    /\ (S = K * exp (- (r * T)) ->
          BS_CALL S K T r 0 = Ret NaN /\ BS_PUT S K T r 0 = Ret NaN).
Proof.
  intros S K T r HS HK HT.
  assert (Hden : 0 * sqrt T = 0) by ring.
  pose proof (BS_CALL_zero_denominator S K T r 0 HS HK (Rlt_le _ _ HT) Hden) as Hc.
  pose proof (BS_PUT_zero_denominator S K T r 0 HS HK (Rlt_le _ _ HT) Hden) as Hp.
  cbv zeta in Hc, Hp. rewrite Hc, Hp.
  replace (ln (S / K) + (r + 0 ^ 2 / 2) * T) with (ln (S / K) + r * T) by field.
  rewrite ln_forward by assumption.
  assert (HD : 0 < K * exp (- (r * T))) by (apply Rmult_lt_0_compat; [lra | apply exp_pos]).
  destruct (ln_ratio_sign S (K * exp (- (r * T))) HS HD) as (Hgt & Hlt & Heq).
  split; [| split]; intro H;
    [specialize (Hgt H) | specialize (Hlt H) | specialize (Heq H)];
    destruct (total_order_T (ln (S / (K * exp (- (r * T))))) 0) as [[? | ?] | ?];
    try lra; split; reflexivity.
Qed.

Lemma zero_sigma_prices_witness :
  BS_CALL 2 1 1 0 0 = Ret (Fin (2 - 1 * exp (- (0 * 1))))
  /\ BS_PUT 2 1 1 0 0 = Ret (Fin 0).
Proof.
  apply (zero_sigma_prices 2 1 1 0); try lra.
  replace (- (0 * 1)) with 0 by ring. rewrite exp_0. lra.
Defined.

(** ** Further properties of the calibrator *)

(** X10, soundness: a volatility that [implied_volatility] returns for a
    leg is the rounding, at most 0.00005 away, of a sigma the leg
    visited whose price is finite and within 0.01 of the leg's market
    price. *)
Theorem returned_volatility_is_sound :
  forall m_call m_put S K T r initial_sigma call_vol put_vol,
    implied_volatility m_call m_put S K T r initial_sigma = Ret (call_vol, put_vol) ->
    (forall v, call_vol = Some v ->
       exists s e,
         In s (visited (call_leg m_call S K T r initial_sigma))
         /\ BS_CALL S K T r s = Ret (Fin e)
         /\ Rabs (e - m_call) < 0.01
         /\ v = py_round s 4 /\ Rabs (v - s) <= 0.00005)
    /\ (forall v, put_vol = Some v ->
          exists s e,
            In s (visited (put_leg m_put S K T r initial_sigma))
            /\ BS_PUT S K T r s = Ret (Fin e)
            /\ Rabs (e - m_put) < 0.01
            /\ v = py_round s 4 /\ Rabs (v - s) <= 0.00005).
Proof.
  intros * H. apply implied_volatility_legs in H as [Hc Hp].
  assert (Herr : forall s, Rabs (py_round s 4 - s) <= 0.00005).
  { intro s. eapply Rle_trans; [apply py_round_error |]. right. simpl. lra. }
  split; intros v ->.
  - apply leg_some_meets in Hc as (s & est & Hin & He & Hm & ->).
    apply meets_tolerance_finite in Hm as (e & -> & Hlt).
    exists s, e. repeat split; trivial.
  - apply leg_some_meets in Hp as (s & est & Hin & He & Hm & ->).
    apply meets_tolerance_finite in Hm as (e & -> & Hlt).
    exists s, e. repeat split; trivial.
Qed.

Lemma returned_volatility_is_sound_witness :
  exists s e,
    In s (visited (call_leg (call_formula 100 100 1 0.05 0.2) 100 100 1 0.05 0.2))
    /\ BS_CALL 100 100 1 0.05 s = Ret (Fin e)
    /\ Rabs (py_round 0.2 4 - s) <= 0.00005.
Proof.
  assert (E : implied_volatility (call_formula 100 100 1 0.05 0.2)
                (put_formula 100 100 1 0.05 0.2) 100 100 1 0.05 0.2
              = Ret (Some (py_round 0.2 4), Some (py_round 0.2 4))).
  { unfold implied_volatility, call_leg, put_leg, max_iterations.
    rewrite (leg_accept _ _ _ _ (Fin (call_formula 100 100 1 0.05 0.2))).
    - rewrite (leg_accept _ _ _ _ (Fin (put_formula 100 100 1 0.05 0.2))).
      + reflexivity.
      + apply BS_PUT_valid; lra.
      + apply meets_tolerance_close. unfold Rminus, tolerance.
        rewrite Rplus_opp_r, Rabs_R0. lra.
    - apply BS_CALL_valid; lra.
    - apply meets_tolerance_close. unfold Rminus, tolerance.
      rewrite Rplus_opp_r, Rabs_R0. lra. }
  destruct (returned_volatility_is_sound _ _ _ _ _ _ _ _ _ E) as [Hc _].
  destruct (Hc _ eq_refl) as (s & e & Hin & He & _ & _ & Herr).
  exists s, e. repeat split; assumption.
Defined.

(** X11: the sigma of iteration [k] of either leg is [initial_sigma]
    times [k] factors, each 0.95 or 1.05, and [k] is below 100. *)
Theorem visited_sigmas_on_grid :
  forall m_call m_put S K T r initial_sigma k s,
    nth_error (visited (call_leg m_call S K T r initial_sigma)) k = Some s
    \/ nth_error (visited (put_leg m_put S K T r initial_sigma)) k = Some s ->
    (k < 100)%nat
    /\ exists a b, (a + b = k)%nat /\ s = initial_sigma * 0.95 ^ a * 1.05 ^ b.
Proof.
  intros * [H | H].
  - split; [| exact (leg_grid _ _ _ _ _ _ H)].
    assert (Hk : nth_error (visited (call_leg m_call S K T r initial_sigma)) k <> None)
      by (rewrite H; discriminate).
    apply nth_error_Some in Hk.
    pose proof (leg_iterations (BS_CALL S K T r) m_call max_iterations initial_sigma) as Hl.
    unfold call_leg in Hk. unfold max_iterations in Hl at 2. lia.
  - split; [| exact (leg_grid _ _ _ _ _ _ H)].
    assert (Hk : nth_error (visited (put_leg m_put S K T r initial_sigma)) k <> None)
      by (rewrite H; discriminate).
    apply nth_error_Some in Hk.
    pose proof (leg_iterations (BS_PUT S K T r) m_put max_iterations initial_sigma) as Hl.
    unfold put_leg in Hk. unfold max_iterations in Hl at 2. lia.
Qed.

Lemma visited_sigmas_on_grid_witness :
  nth_error (visited (call_leg 150 100 100 1 0.05 0.2)) 1 = Some (0.2 + 0.2 * 0.05)
  /\ lt 1 100
  /\ exists a b, (a + b = 1)%nat /\ 0.2 + 0.2 * 0.05 = 0.2 * 0.95 ^ a * 1.05 ^ b.
Proof.
  assert (Hstep : forall n s, 0 < s ->
            leg (BS_CALL 100 100 1 0.05) 150 (1 + n) s
            = entered s (leg (BS_CALL 100 100 1 0.05) 150 n (s + s * 0.05))).
  { intros n s Hs.
    pose proof (call_formula_le_spot 100 100 1 0.05 s) as Hle.
    rewrite (leg_continue _ _ _ _ (Fin (call_formula 100 100 1 0.05 s)));
      [| apply BS_CALL_valid; lra
       | apply market_out_of_reach; unfold tolerance; lra].
    f_equal. unfold next_sigma, fgt, flt.
    destruct (Rlt_dec 150 (call_formula 100 100 1 0.05 s)); [lra | reflexivity]. }
  assert (H : nth_error (visited (call_leg 150 100 100 1 0.05 0.2)) 1
              = Some (0.2 + 0.2 * 0.05)).
  { unfold call_leg. change max_iterations with (1 + (1 + 98))%nat.
    rewrite (Hstep (1 + 98)%nat 0.2) by lra.
    rewrite (Hstep 98%nat (0.2 + 0.2 * 0.05)) by lra.
    reflexivity. }
  split; [exact H |].
  apply (visited_sigmas_on_grid 150 5 100 100 1 0.05 0.2 1%nat (0.2 + 0.2 * 0.05)).
  left. exact H.
Defined.

(** X12, the search steps toward the root: for S, K, T > 0, when the
    market call price is the call price of a volatility [target > 0],
    every sigma the call leg visits from a seed [initial_sigma > 0] lies
    between [min initial_sigma (0.95 target)] and
    [max initial_sigma (1.05 target)]; likewise for the put leg. *)
Theorem search_stays_bracketed :
  forall m_call m_put S K T r initial_sigma target,
    0 < S -> 0 < K -> 0 < T -> 0 < initial_sigma -> 0 < target ->
    (BS_CALL S K T r target = Ret (Fin m_call) ->
       Forall (fun s => Rmin initial_sigma (0.95 * target) <= s
                        <= Rmax initial_sigma (1.05 * target))
              (visited (call_leg m_call S K T r initial_sigma)))
    /\ (BS_PUT S K T r target = Ret (Fin m_put) ->
          Forall (fun s => Rmin initial_sigma (0.95 * target) <= s
                           <= Rmax initial_sigma (1.05 * target))
                 (visited (put_leg m_put S K T r initial_sigma))).
Proof.
  intros * HS HK HT H0 Ht. split; intro E.
  - rewrite BS_CALL_valid in E by assumption. injection E as <-.
    apply (leg_bracket (call_formula S K T r)); try assumption.
    + intros s Hs. now apply BS_CALL_valid.
    + intros s1 s2 H1 H12. now apply call_formula_increasing.
  - rewrite BS_PUT_valid in E by assumption. injection E as <-.
    apply (leg_bracket (put_formula S K T r)); try assumption.
    + intros s Hs. now apply BS_PUT_valid.
    + intros s1 s2 H1 H12. now apply put_formula_increasing.
Qed.

Lemma search_stays_bracketed_witness :
  Forall (fun s => Rmin 0.25 (0.95 * 0.2) <= s <= Rmax 0.25 (1.05 * 0.2))
         (visited (call_leg (call_formula 100 100 1 0.05 0.2) 100 100 1 0.05 0.25)).
Proof.
  apply (search_stays_bracketed (call_formula 100 100 1 0.05 0.2) 0 100 100 1 0.05 0.25 0.2);
    try lra.
  apply BS_CALL_valid; lra.
Defined.

(** The no-arbitrage band: the call price is at least
    [max (S - K * exp (-rT)) 0], the put price is between
    [max (K * exp (-rT) - S) 0] and [K * exp (-rT)], so a market price
    outside the band by the tolerance is never matched. *)
Lemma implied_volatility_outside_band :
  forall m_call m_put S K T r initial_sigma,
    0 < S -> 0 < K -> 0 < T -> 0 < initial_sigma ->
    exists call_vol put_vol,
      implied_volatility m_call m_put S K T r initial_sigma = Ret (call_vol, put_vol)
      /\ (m_call + 0.01 <= Rmax (S - K * exp (- (r * T))) 0 -> call_vol = None)
      /\ (m_put + 0.01 <= Rmax (K * exp (- (r * T)) - S) 0
          \/ K * exp (- (r * T)) + 0.01 <= m_put -> put_vol = None).
Proof.
  intros * HS HK HT H0.
  assert (HK0 : K <> 0) by lra.
  destruct (implied_volatility_returns m_call m_put S K T r initial_sigma HK0)
    as (cv & pv & Hc & Hp & E).
  exists cv, pv. split; [exact E |]. split; intro Hm.
  - destruct (leg_never_met (fun s => 0 < s) (BS_CALL S K T r) m_call) with
      (n := max_iterations) (sigma := initial_sigma) as [Hnone _]; trivial.
    + intros s est Hs _ _. now apply next_sigma_pos.
    + intros s Hs. exists (Fin (call_formula S K T r s)).
      split; [now apply BS_CALL_valid |].
      apply market_out_of_reach_below. unfold tolerance.
      pose proof (call_formula_nonneg S K T r s HS HK HT Hs).
      pose proof (put_formula_nonneg S K T r s HS HK HT Hs).
      pose proof (parity_formula S K T r s).
      revert Hm. unfold Rmax. destruct (Rle_dec (S - K * exp (- (r * T))) 0); lra.
    + unfold call_leg in Hc. congruence.
  - destruct (leg_never_met (fun s => 0 < s) (BS_PUT S K T r) m_put) with
      (n := max_iterations) (sigma := initial_sigma) as [Hnone _]; trivial.
    + intros s est Hs _ _. now apply next_sigma_pos.
    + intros s Hs. exists (Fin (put_formula S K T r s)).
      split; [now apply BS_PUT_valid |].
      pose proof (call_formula_nonneg S K T r s HS HK HT Hs).
      pose proof (put_formula_nonneg S K T r s HS HK HT Hs).
      pose proof (put_formula_le_strike S K T r s HS HK).
      pose proof (parity_formula S K T r s).
      destruct Hm as [Hm | Hm].
      * apply market_out_of_reach_below. unfold tolerance.
        revert Hm. unfold Rmax. destruct (Rle_dec (K * exp (- (r * T)) - S) 0); lra.
      * apply market_out_of_reach. unfold tolerance. lra.
    + unfold put_leg in Hp. congruence.
Qed.

(** X13: for S, K, T, initial_sigma > 0 and a seed from which sigma
    cannot grow out of the range of [sigma**2]
    ([(initial_sigma * 1.05^99)^2] below the float overflow), a market
    price outside the no-arbitrage band by the tolerance or more is
    never matched: [implied_volatility] raises nothing, the call leg
    yields [None] when [m_call + 0.01 <= max (S - K * exp (-rT)) 0], and
    the put leg yields [None] when
    [m_put + 0.01 <= max (K * exp (-rT) - S) 0] or
    [K * exp (-rT) + 0.01 <= m_put]. *)
Theorem price_outside_band_gives_none :
  forall m_call m_put S K T r initial_sigma,
    0 < S -> 0 < K -> 0 < T -> 0 < initial_sigma ->
    (initial_sigma * 1.05 ^ 99) ^ 2 < float_overflow ->
    exists call_vol put_vol,
      implied_volatility_pyfloat m_call m_put S K T r initial_sigma
      = Ret (call_vol, put_vol)
      /\ (m_call + 0.01 <= Rmax (S - K * exp (- (r * T))) 0 -> call_vol = None)
      /\ (m_put + 0.01 <= Rmax (K * exp (- (r * T)) - S) 0
          \/ K * exp (- (r * T)) + 0.01 <= m_put -> put_vol = None).
Proof.
  intros * HS HK HT H0 Hr.
  rewrite (implied_volatility_pyfloat_in_range m_call m_put S K T r initial_sigma Hr).
  now apply implied_volatility_outside_band.
Qed.

Lemma price_outside_band_gives_none_witness :
  exists put_vol,
    implied_volatility_pyfloat (-1) 5 100 100 1 0.05 0.2 = Ret (None, put_vol).
Proof.
  destruct (price_outside_band_gives_none (-1) 5 100 100 1 0.05 0.2)
    as (cv & pv & E & Hc & _); try lra; [apply unit_seed_in_range; lra |].
  exists pv. rewrite E. rewrite Hc; [reflexivity |].
  eapply Rle_trans; [| apply Rmax_r]. lra.
Defined.

(** With a negative maturity every estimate is NaN and no comparison
    succeeds. *)
Lemma implied_volatility_negative_maturity :
  forall m_call m_put S K T r initial_sigma,
    K <> 0 -> T < 0 ->
    implied_volatility m_call m_put S K T r initial_sigma = Ret (None, None)
    /\ length (visited (call_leg m_call S K T r initial_sigma)) = 100%nat
    /\ length (visited (put_leg m_put S K T r initial_sigma)) = 100%nat.
Proof.
  intros * HK HT.
  destruct (leg_never_met (fun _ => True) (BS_CALL S K T r) m_call) with
    (n := max_iterations) (sigma := initial_sigma) as [Hc Hcl]; trivial.
  { intros s _. exists NaN. split; [now apply BS_CALL_negative_T | reflexivity]. }
  destruct (leg_never_met (fun _ => True) (BS_PUT S K T r) m_put) with
    (n := max_iterations) (sigma := initial_sigma) as [Hp Hpl]; trivial.
  { intros s _. exists NaN. split; [now apply BS_PUT_negative_T | reflexivity]. }
  unfold implied_volatility, call_leg, put_leg.
  rewrite Hc, Hp. repeat split; assumption.
Qed.

(** X14: a negative maturity is not reported: with K <> 0, T < 0 and a
    seed from which sigma cannot grow out of the range of [sigma**2]
    ([(initial_sigma * 1.05^99)^2] below the float overflow), every
    estimate is NaN, no comparison succeeds, sigma grows by 5% an
    iteration, and [implied_volatility] returns [(None, None)] after 100
    iterations of each leg, as for a search that did not converge. *)
Theorem negative_maturity_gives_none :
  forall m_call m_put S K T r initial_sigma,
    K <> 0 -> T < 0 ->
    (initial_sigma * 1.05 ^ 99) ^ 2 < float_overflow ->
    implied_volatility_pyfloat m_call m_put S K T r initial_sigma = Ret (None, None)
    /\ length (visited (call_leg_pyfloat m_call S K T r initial_sigma)) = 100%nat
    /\ length (visited (put_leg_pyfloat m_put S K T r initial_sigma)) = 100%nat.
Proof.
  intros * HK HT Hr.
  rewrite (implied_volatility_pyfloat_in_range m_call m_put S K T r initial_sigma Hr).
  rewrite (call_leg_pyfloat_in_range m_call S K T r initial_sigma Hr).
  rewrite (put_leg_pyfloat_in_range m_put S K T r initial_sigma Hr).
  now apply implied_volatility_negative_maturity.
Qed.

Lemma negative_maturity_gives_none_witness :
  implied_volatility_pyfloat 10 5 100 100 (-1) 0.05 0.2 = Ret (None, None).
Proof.
  apply (negative_maturity_gives_none 10 5 100 100 (-1) 0.05 0.2); try lra.
  apply unit_seed_in_range; lra.
Defined.

(** X15: a zero seed never moves: with [initial_sigma = 0] every sigma
    either leg visits is 0, and a volatility that [implied_volatility]
    returns is 0. *)
Theorem zero_seed_is_stuck :
  forall m_call m_put S K T r,
    Forall (fun s => s = 0) (visited (call_leg m_call S K T r 0))
    /\ Forall (fun s => s = 0) (visited (put_leg m_put S K T r 0))
    /\ forall call_vol put_vol,
         implied_volatility m_call m_put S K T r 0 = Ret (call_vol, put_vol) ->
         (call_vol = None \/ call_vol = Some 0)
         /\ (put_vol = None \/ put_vol = Some 0).
Proof.
  intros.
  assert (Hinv : forall price market,
            Forall (fun s => s = 0) (visited (leg price market max_iterations 0))).
  { intros price market. apply (leg_invariant (fun s => s = 0)); [| reflexivity].
    intros s est -> _ _. apply next_sigma_zero. }
  assert (Hvol : forall price market o,
            vol (leg price market max_iterations 0) = Ret o -> o = None \/ o = Some 0).
  { intros price market [v |] Hv; [right | now left].
    apply leg_some in Hv as (s & Hin & ->).
    pose proof (proj1 (Forall_forall _ _) (Hinv price market) s Hin) as ->.
    now rewrite py_round_0. }
  split; [apply Hinv |]. split; [apply Hinv |].
  intros cv pv E. apply implied_volatility_legs in E as [Hc Hp].
  split; [exact (Hvol _ _ _ Hc) | exact (Hvol _ _ _ Hp)].
Qed.

(** From a negative seed sigma stays negative, the call is priced at
    minus the put and the put at minus the call: no estimate is above 0. *)
Lemma implied_volatility_negative_seed :
  forall m_call m_put S K T r initial_sigma,
    0 < S -> 0 < K -> 0 < T -> initial_sigma < 0 ->
    0.01 <= m_call -> 0.01 <= m_put ->
    implied_volatility m_call m_put S K T r initial_sigma = Ret (None, None).
Proof.
  intros * HS HK HT H0 Hmc Hmp.
  destruct (leg_never_met (fun s => s < 0) (BS_CALL S K T r) m_call) with
    (n := max_iterations) (sigma := initial_sigma) as [Hc _]; trivial.
  { intros s est Hs _ _. now apply next_sigma_neg. }
  { intros s Hs. exists (Fin (call_formula S K T r s)).
    split; [apply BS_CALL_nonzero_sigma; assumption || lra |].
    apply market_out_of_reach. unfold tolerance.
    replace s with (- - s) by ring.
    rewrite call_formula_opp_sigma by lra.
    assert (0 < - s) by lra.
    pose proof (put_formula_nonneg S K T r (- s) HS HK HT H). lra. }
  destruct (leg_never_met (fun s => s < 0) (BS_PUT S K T r) m_put) with
    (n := max_iterations) (sigma := initial_sigma) as [Hp _]; trivial.
  { intros s est Hs _ _. now apply next_sigma_neg. }
  { intros s Hs. exists (Fin (put_formula S K T r s)).
    split; [apply BS_PUT_nonzero_sigma; assumption || lra |].
    apply market_out_of_reach. unfold tolerance.
    replace s with (- - s) by ring.
    rewrite put_formula_opp_sigma by lra.
    assert (0 < - s) by lra.
    pose proof (call_formula_nonneg S K T r (- s) HS HK HT H). lra. }
  unfold implied_volatility, call_leg, put_leg.
  rewrite Hc, Hp. reflexivity.
Qed.

(** X16: a negative seed finds nothing: for S, K, T > 0,
    [initial_sigma < 0] with [(initial_sigma * 1.05^99)^2] below the
    float overflow, and market prices of at least 0.01, every estimate
    is at most 0, sigma grows by 5% an iteration, and
    [implied_volatility] returns [(None, None)]. *)
Theorem negative_seed_gives_none :
  forall m_call m_put S K T r initial_sigma,
    0 < S -> 0 < K -> 0 < T -> initial_sigma < 0 ->
    (initial_sigma * 1.05 ^ 99) ^ 2 < float_overflow ->
    0.01 <= m_call -> 0.01 <= m_put ->
    implied_volatility_pyfloat m_call m_put S K T r initial_sigma = Ret (None, None).
Proof.
  intros * HS HK HT H0 Hr Hmc Hmp.
  rewrite (implied_volatility_pyfloat_in_range m_call m_put S K T r initial_sigma Hr).
  now apply implied_volatility_negative_seed.
Qed.

Lemma negative_seed_gives_none_witness :
  implied_volatility_pyfloat 10 5 100 100 1 0.05 (-0.2) = Ret (None, None).
Proof.
  apply (negative_seed_gives_none 10 5 100 100 1 0.05 (-0.2)); try lra.
  apply unit_seed_in_range; lra.
Defined.

Lemma zero_seed_is_stuck_witness :
  exists call_vol put_vol,
    implied_volatility 10 5 100 100 1 0.05 0 = Ret (call_vol, put_vol)
    /\ (call_vol = None \/ call_vol = Some 0).
Proof.
  destruct (implied_volatility_returns 10 5 100 100 1 0.05 0) as (cv & pv & _ & _ & E);
    [lra |].
  exists cv, pv. split; [exact E |].
  destruct (zero_seed_is_stuck 10 5 100 100 1 0.05) as (_ & _ & H).
  exact (proj1 (H cv pv E)).
Defined.

(** ** The series behind the plots *)

Lemma nth_error_map_inv : forall (A B : Type) (f : A -> B) l k y,
  nth_error (map f l) k = Some y -> exists x, nth_error l k = Some x /\ y = f x.
Proof.
  intros A B f l k y H. rewrite nth_error_map in H.
  destruct (nth_error l k) as [x |]; [| discriminate].
  injection H as <-. exists x. split; reflexivity.
Qed.

(** X17: for S, K, T > 0, [plot_sigma_change] raises nothing; it prices
    the 149 volatilities [0.01, 0.02, ..., 1.49], every price is finite,
    and both the call series and the put series it plots never
    decrease. *)
Theorem plot_sigma_change_series :
  forall S K T r, 0 < S -> 0 < K -> 0 < T ->
    exists calls puts : list R,
      plot_sigma_change S K T r
      = Ret (np_arange 0.01 1.5 0.01, map Fin calls, map Fin puts)
      /\ length calls = 149%nat /\ length puts = 149%nat
      /\ (forall k sig, nth_error (np_arange 0.01 1.5 0.01) k = Some sig ->
            sig = 0.01 + INR k * 0.01)
      /\ (forall i j x y, (i <= j)%nat ->
            nth_error calls i = Some x -> nth_error calls j = Some y -> x <= y)
      /\ (forall i j x y, (i <= j)%nat ->
            nth_error puts i = Some x -> nth_error puts j = Some y -> x <= y).
Proof.
  intros S K T r HS HK HT.
  set (Sigmas := np_arange 0.01 1.5 0.01).
  assert (Hpos : forall sig, In sig Sigmas -> 0 < sig).
  { intros sig Hin. apply np_arange_in in Hin; lra. }
  exists (map (call_formula S K T r) Sigmas), (map (put_formula S K T r) Sigmas).
  split; [| split; [| split; [| split; [| split]]]].
  - unfold plot_sigma_change. fold Sigmas.
    rewrite (comprehension_map _ _ _ (fun sig => Fin (call_formula S K T r sig)))
      by (intros sig Hin; apply BS_CALL_valid; auto).
    rewrite (comprehension_map _ _ _ (fun sig => Fin (put_formula S K T r sig)))
      by (intros sig Hin; apply BS_PUT_valid; auto).
    cbn [bind]. rewrite !map_map. reflexivity.
  - rewrite length_map. apply Sigmas_length.
  - rewrite length_map. apply Sigmas_length.
  - intros k sig H. now apply np_arange_nth in H.
  - intros i j x y Hij Hx Hy.
    apply nth_error_map_inv in Hx as (s1 & H1 & ->).
    apply nth_error_map_inv in Hy as (s2 & H2 & ->).
    apply call_formula_monotone; try assumption.
    + apply Hpos. eapply nth_error_In; exact H1.
    + apply (np_arange_sorted 0.01 1.5 0.01 i j); trivial. lra.
  - intros i j x y Hij Hx Hy.
    apply nth_error_map_inv in Hx as (s1 & H1 & ->).
    apply nth_error_map_inv in Hy as (s2 & H2 & ->).
    apply put_formula_monotone; try assumption.
    + apply Hpos. eapply nth_error_In; exact H1.
    + apply (np_arange_sorted 0.01 1.5 0.01 i j); trivial. lra.
Qed.

Lemma plot_sigma_change_series_witness :
  exists calls puts : list R,
    plot_sigma_change 100 100 1 0.05
    = Ret (np_arange 0.01 1.5 0.01, map Fin calls, map Fin puts)
    /\ length calls = 149%nat.
Proof.
  destruct (plot_sigma_change_series 100 100 1 0.05) as (cs & ps & E & Hl & _); try lra.
  exists cs, ps. split; assumption.
Defined.



(** X19: on a chain whose strikes and prices are numbers (no NaN) and
    whose strikes are not zero, and with a seed from which sigma cannot
    grow out of the range of [sigma**2]
    ([(original_sigma * 1.05^99)^2] below the float overflow),
    [plot_implied_volatility] raises nothing and computes one point per
    row of each side, in the order of the rows; the volatility of a
    point is that of the leg run against the price of the first row that
    has the point's strike, the same for a numpy float64 and for a
    Python float sigma. *)
Theorem plot_implied_volatility_points :
  forall calls puts T S r original_sigma,
    (forall row, In row calls \/ In row puts -> fst row <> 0) ->
    (original_sigma * 1.05 ^ 99) ^ 2 < float_overflow ->
    exists call_points put_points,
      plot_implied_volatility calls puts T S r original_sigma
      = Ret (call_points, put_points)
      /\ map fst call_points = map fst calls
      /\ map fst put_points = map fst puts
      /\ (forall strike v, In (strike, v) call_points ->
            exists row rest,
              rows_at calls strike = row :: rest
              /\ vol (call_leg (snd row) S strike T r original_sigma) = Ret v
              /\ vol (call_leg_pyfloat (snd row) S strike T r original_sigma) = Ret v)
      /\ (forall strike v, In (strike, v) put_points ->
            exists row rest,
              rows_at puts strike = row :: rest
              /\ vol (put_leg (snd row) S strike T r original_sigma) = Ret v
              /\ vol (put_leg_pyfloat (snd row) S strike T r original_sigma) = Ret v).
Proof.
  intros calls puts T S r sigma0 Hnz Hr.
  assert (Hnzs : forall (rows : chain_rows) strike,
            (forall row, In row rows -> fst row <> 0) ->
            In strike (map fst rows) -> strike <> 0).
  { intros rows strike H Hin. apply in_map_iff in Hin as (row & <- & Hrow). now apply H. }
  destruct (scatter_points_returns
              (fun m strike => omap fst (implied_volatility m 0 S strike T r sigma0))
              (fun m strike v =>
                 vol (call_leg m S strike T r sigma0) = Ret v
                 /\ vol (call_leg_pyfloat m S strike T r sigma0) = Ret v)
              calls (map fst calls)) as (cps & Ec & Hcf & Hcp).
  { intros strike. apply strikes_have_rows. }
  { intros m strike Hin.
    assert (HK : strike <> 0) by (apply (Hnzs calls); auto).
    destruct (implied_volatility_returns m 0 S strike T r sigma0 HK)
      as (cv & pv & Hc & _ & E).
    exists cv. rewrite E. split; [reflexivity |]. split; [exact Hc |].
    rewrite (call_leg_pyfloat_in_range m S strike T r sigma0 Hr). exact Hc. }
  destruct (scatter_points_returns
              (fun m strike => omap snd (implied_volatility 0 m S strike T r sigma0))
              (fun m strike v =>
                 vol (put_leg m S strike T r sigma0) = Ret v
                 /\ vol (put_leg_pyfloat m S strike T r sigma0) = Ret v)
              puts (map fst puts)) as (pps & Ep & Hpf & Hpp).
  { intros strike. apply strikes_have_rows. }
  { intros m strike Hin.
    assert (HK : strike <> 0) by (apply (Hnzs puts); auto).
    destruct (implied_volatility_returns 0 m S strike T r sigma0 HK)
      as (cv & pv & _ & Hp & E).
    exists pv. rewrite E. split; [reflexivity |]. split; [exact Hp |].
    rewrite (put_leg_pyfloat_in_range m S strike T r sigma0 Hr). exact Hp. }
  exists cps, pps. unfold plot_implied_volatility. rewrite Ec, Ep.
  repeat split; assumption.
Qed.

Lemma plot_implied_volatility_points_witness :
  exists call_points put_points,
    plot_implied_volatility [(95, 8); (100, 5)] [(100, 4)] 1 100 0.05 0.2
    = Ret (call_points, put_points)
    /\ map fst call_points = [95; 100].
Proof.
  destruct (plot_implied_volatility_points [(95, 8); (100, 5)] [(100, 4)] 1 100 0.05 0.2)
    as (cps & pps & E & Hc & _).
  - intros row [[<- | [<- | []]] | [<- | []]]; cbn; lra.
  - apply unit_seed_in_range; lra.
  - exists cps, pps. split; assumption.
Defined.



(** X21: with a strike other than zero and a sigma whose square is in
    the float range (so that neither [S/K] nor [sigma**2] raises), the
    five lists that [plot_compare_prices_with_maturities] fills stay in
    step: whatever the chains hold and whichever fetches fail, the
    market prices, the model prices and the dates end with one length,
    at most the number of dates; no date raises, a maturity of zero or
    less included. *)
Theorem plot_compare_lists_in_step :
  forall option_chain options_dates strike S r sigma,
    strike <> 0 ->
    sigma ^ 2 < float_overflow ->
    let st := plot_compare_prices_with_maturities option_chain options_dates
                strike S r sigma in
    length (market_call_prices st) = length (valid_dates st)
    /\ length (bs_call_prices st) = length (valid_dates st)
    /\ length (market_put_prices st) = length (valid_dates st)
    /\ length (bs_put_prices st) = length (valid_dates st)
    /\ (length (valid_dates st) <= length options_dates)%nat.
Proof.
  intros option_chain dates strike S r sigma HK _ st.
  assert (Hsync : in_sync st).
  { unfold st, plot_compare_prices_with_maturities.
    apply fold_compare_in_sync; [exact HK |]. repeat split. }
  destruct Hsync as (H1 & H2 & H3 & H4). repeat split; trivial.
  assert (Hlen : forall ds st0,
            (length (valid_dates
                       (fold_left (compare_date option_chain strike S r sigma) ds st0))
             <= length (valid_dates st0) + length ds)%nat).
  { induction ds as [| d ds IH]; intro st0; cbn [fold_left length]; [lia |].
    specialize (IH (compare_date option_chain strike S r sigma st0 d)).
    assert (length (valid_dates (compare_date option_chain strike S r sigma st0 d))
            <= 1 + length (valid_dates st0))%nat; [| lia].
    unfold compare_date.
    destruct (option_chain d) as [[calls puts] |]; [| lia].
    destruct (rows_at calls strike) as [| fc fcs]; [lia |].
    destruct (rows_at puts strike) as [| fp fps]; [lia |].
    destruct (BS_CALL S strike (IZR d / 365) r sigma); cbn; [| lia].
    destruct (BS_PUT S strike (IZR d / 365) r sigma); cbn; [| lia].
    rewrite length_app. cbn. lia. }
  specialize (Hlen dates (mk_lists [] [] [] [] [])). exact Hlen.
Qed.

Lemma plot_compare_lists_in_step_witness :
  length (market_call_prices
            (plot_compare_prices_with_maturities
               (fun _ => Some ([(100, 5)], [(100, 4)])) [7%Z; 0%Z] 100 100 0.05 0.2))
  = length (valid_dates
              (plot_compare_prices_with_maturities
                 (fun _ => Some ([(100, 5)], [(100, 4)])) [7%Z; 0%Z] 100 100 0.05 0.2)).
Proof.
  apply (plot_compare_lists_in_step
           (fun _ => Some ([(100, 5)], [(100, 4)])) [7%Z; 0%Z] 100 100 0.05 0.2).
  - lra.
  - apply unit_square_in_range; lra.
Defined.

Lemma fold_compare_zero_strike : forall option_chain S r sigma dates st,
  only_market_calls st ->
  only_market_calls (fold_left (compare_date option_chain 0 S r sigma) dates st)
  /\ (length (market_call_prices st)
      <= length (market_call_prices
                   (fold_left (compare_date option_chain 0 S r sigma) dates st)))%nat
  /\ forall date calls puts,
       In date dates -> option_chain date = Some (calls, puts) ->
       rows_at calls 0 <> [] -> rows_at puts 0 <> [] ->
       (length (market_call_prices st)
        < length (market_call_prices
                    (fold_left (compare_date option_chain 0 S r sigma) dates st)))%nat.
Proof.
  intros option_chain S r sigma dates.
  induction dates as [| d dates IH]; intros st Hst.
  - cbn. split; [exact Hst |]. split; [lia |]. intros ? ? ? [].
  - cbn [fold_left].
    destruct (compare_date_zero_strike option_chain S r sigma st d Hst) as [Hst' Hle].
    destruct (IH _ Hst') as (Hfin & Hle' & Hlt').
    split; [exact Hfin |]. split; [lia |].
    intros date calls puts [-> | Hin] Hch Hc Hp.
    + assert (length (market_call_prices st)
              < length (market_call_prices (compare_date option_chain 0 S r sigma st date)))%nat;
        [| lia].
      unfold compare_date. rewrite Hch.
      destruct (rows_at calls 0) as [| fc fcs]; [contradiction |].
      destruct (rows_at puts 0) as [| fp fps]; [contradiction |].
      rewrite BS_CALL_zero_strike. cbn. rewrite length_app. cbn. lia.
    + specialize (Hlt' date calls puts Hin Hch Hc Hp). lia.
Qed.

(** X22: with a zero strike the lists fall out of step: the model
    prices, the market put prices and the dates stay empty, while every
    date whose chain has a row at strike 0 on both sides leaves its
    market call price behind, appended before [BS_CALL] raised. *)
Theorem plot_compare_zero_strike_out_of_step :
  forall option_chain options_dates S r sigma,
    let st := plot_compare_prices_with_maturities option_chain options_dates
                0 S r sigma in
    bs_call_prices st = [] /\ market_put_prices st = []
    /\ bs_put_prices st = [] /\ valid_dates st = []
    /\ forall date calls puts,
         In date options_dates -> option_chain date = Some (calls, puts) ->
         rows_at calls 0 <> [] -> rows_at puts 0 <> [] ->
         (length (valid_dates st) < length (market_call_prices st))%nat.
Proof.
  intros option_chain dates S r sigma st.
  destruct (fold_compare_zero_strike option_chain S r sigma dates (mk_lists [] [] [] [] []))
    as ((H1 & H2 & H3 & H4) & _ & Hlt); [repeat split |].
  fold (plot_compare_prices_with_maturities option_chain dates 0 S r sigma) in *.
  fold st in H1, H2, H3, H4, Hlt.
  repeat split; trivial.
  intros date calls puts Hin Hch Hc Hp.
  specialize (Hlt date calls puts Hin Hch Hc Hp). rewrite H4. cbn in *. lia.
Qed.

Lemma plot_compare_zero_strike_out_of_step_witness :
  lt (length (valid_dates
                (plot_compare_prices_with_maturities
                   (fun _ => Some ([(0, 5)], [(0, 4)])) [7%Z] 0 100 0.05 0.2)))
     (length (market_call_prices
                (plot_compare_prices_with_maturities
                   (fun _ => Some ([(0, 5)], [(0, 4)])) [7%Z] 0 100 0.05 0.2))).
Proof.
  destruct (plot_compare_zero_strike_out_of_step
              (fun _ => Some ([(0, 5)], [(0, 4)])) [7%Z] 100 0.05 0.2)
    as (_ & _ & _ & _ & H).
  apply (H 7%Z [(0, 5)] [(0, 4)]).
  - left. reflexivity.
  - reflexivity.
  - apply (rows_at_nonempty [(0, 5)] (0, 5)). left. reflexivity.
  - apply (rows_at_nonempty [(0, 4)] (0, 4)). left. reflexivity.
Defined.
